(** * schema-generate: the code emitter of [output.go]

    A shallow embedding of the Go package [generate], file [output.go]:
    the ordering helpers, the zero-value resolver, the three per-record
    emitters and the orchestrator [Output], followed by the properties
    of the emitted text.

    Go strings are [string]s (byte sequences, compared byte-wise), Go maps
    keyed by strings are [gmap string _], an [io.Writer] is the text
    written to it so far, and the shared [imports] map travels with the
    writer it is passed along with. *)

From Stdlib Require Import Ascii String.
From stdpp Require Import base option list sorting gmap strings.

Local Open Scope stdpp_scope.

(** ** Text *)

Definition nl : string := Eval cbv in String (ascii_of_nat 10) EmptyString.
Definition tab : string := Eval cbv in String (ascii_of_nat 9) EmptyString.
Definition dq : string := Eval cbv in String (ascii_of_nat 34) EmptyString.

(** [strings.HasPrefix s p]. *)
Definition HasPrefix (s p : string) : bool := String.prefix p s.

(** [strings.Index s sub]; [None] stands for Go's [-1]. *)
Definition Index (s sub : string) : option nat := String.index 0 sub s.

(** [strings.Split s "\n"]: the pieces between line feeds, one more than
    there are line feeds. *)
Fixpoint SplitLines (s : string) : list string :=
  match s with
  | EmptyString => [EmptyString]
  | String c r =>
      if Ascii.eqb c (ascii_of_nat 10) then EmptyString :: SplitLines r
      else match SplitLines r with
           | h :: t => String c h :: t
           | [] => [String c EmptyString]
           end
  end.

(** [strings.Join l sep]. *)
Definition Join (l : list string) (sep : string) : string := String.concat sep l.

(** [strings.Replace s (string c) "" (-1)]: every occurrence of the
    one-byte string is dropped. *)
Fixpoint dropByte (c : ascii) (s : string) : string :=
  match s with
  | EmptyString => EmptyString
  | String d r => if Ascii.eqb d c then dropByte c r else String d (dropByte c r)
  end.

(** Does [sub] occur in [s]?  Used to state what emitted text mentions. *)
Definition occurs (sub s : string) : bool := bool_decide (is_Some (Index s sub)).

(** Concatenation of a list of pieces of text. *)
Definition cat (l : list string) : string := foldr String.append EmptyString l.

(** ** Data model *)

(** Modelled from the spec: the declaration of [Field] is not in
    [output.go]; these are the members the emitters read, with the types
    their uses force (strings compared with [==], booleans under [if]). *)
Record Field := mkField {
  Name : string;
  Description : string;
  MarshalName : string;
  UnmarshalName : string;
  MarshalType : string;
  UnmarshalType : string;
  Required : bool;
  OmitEmpty : bool
}.

(** Modelled from the spec: the declaration of [Struct] is not in
    [output.go]; [sName] and [sDescription] are its [Name] and
    [Description]. *)
Record Struct := mkStruct {
  sName : string;
  sDescription : string;
  Fields : gmap string Field;
  AdditionalType : string;
  GenerateCode : bool
}.

(** Modelled from the spec: the declaration of [Generator] is not in
    [output.go]; [Output] reads its two maps. *)
Record Generator := mkGenerator {
  Structs : gmap string Struct;
  Aliases : gmap string Field
}.

(** Indexing a Go map at a missing key yields the zero value of the
    element type; [m !!! k] does the same with these inhabitants. *)
#[global] Instance Field_inhabited : Inhabited Field :=
  populate (mkField "" "" "" "" "" "" false false).
#[global] Instance Struct_inhabited : Inhabited Struct :=
  populate (mkStruct "" "" ∅ "" false).

(** ** Ordering (lines 11-31) *)

(** [sort.Strings]: ascending byte-wise order. *)
Definition sortStrings (l : list string) : list string := merge_sort String.le l.

(** The orders in which [for k := range m] may visit the keys of [m]. *)
Definition rangeOrder {V} (m : gmap string V) (visit : list string) : Prop :=
  visit ≡ₚ (map_to_list m).*1.

(** The loop [keys[idx] = k; idx++] over the keys in the order [visit],
    on the slice [make([]string, len(m))]. *)
Definition fillKeys (visit : list string) : list string :=
  (fold_left (fun '(keys, idx) k => (<[idx := k]> keys, S idx)) visit
             (replicate (length visit) EmptyString, 0)).1.

(** The body shared by [getOrderedFieldNames] and [getOrderedStructNames],
    for a given visiting order of the map. *)
Definition orderedKeys (visit : list string) : list string :=
  sortStrings (fillKeys visit).

Definition getOrderedFieldNames (m : gmap string Field) : list string :=
  orderedKeys (map_to_list m).*1.

Definition getOrderedStructNames (m : gmap string Struct) : list string :=
  orderedKeys (map_to_list m).*1.

(** ** Zero-value resolver (lines 35-57) *)

Definition getZeroValueCheck (schemaType : string) : string * bool :=
  if HasPrefix schemaType "*" then ("nil", true)
  else if HasPrefix schemaType "[]" then ("nil", true)
  else if String.eqb schemaType "array" then ("nil", true)
  else if String.eqb schemaType "bool" then ("false", true)
  else if String.eqb schemaType "int" then ("0", true)
  else if String.eqb schemaType "float64" then ("0", true)
  else if String.eqb schemaType "nil" then ("nil", true)
  else if String.eqb schemaType "string" then (dq +:+ dq, true)
  else ("", false).

(** ** Writers

    An [io.Writer] is the text written to it so far; every
    [fmt.Fprintf], [fmt.Fprintln] and [Write] appends.  The emitters that
    receive the [imports] map work on a context holding both: the map is
    a Go reference, shared by all of them. *)

Definition Writer := string.

Definition Fprintf (txt : string) (w : Writer) : Writer := w +:+ txt.

Record Ctx := mkCtx {
  out : Writer;
  imports : gmap string bool
}.

Definition Emitter := Ctx -> Ctx.

(** [fmt.Fprintf(w, ...)] on the writer of the context. *)
Definition emit (txt : string) : Emitter :=
  fun c => mkCtx (Fprintf txt (out c)) (imports c).

(** [imports[k] = true]. *)
Definition need (k : string) : Emitter :=
  fun c => mkCtx (out c) (<[k := true]> (imports c)).

(** A call that is only given the writer. *)
Definition onWriter (f : Writer -> Writer) : Emitter :=
  fun c => mkCtx (f (out c)) (imports c).

Definition skip : Emitter := fun c => c.

Definition seq (a b : Emitter) : Emitter := fun c => b (a c).

Infix ">>" := seq (at level 62, right associativity).

(** [for _, x := range l { body }] over a slice. *)
Definition forEach {A} (l : list A) (body : A -> Emitter) : Emitter :=
  fun c => fold_left (fun c x => body x c) l c.

(** The same loop for a callee that only writes. *)
Definition forEachW {A} (l : list A) (body : A -> Writer -> Writer) : Writer -> Writer :=
  fun w => fold_left (fun w x => body x w) l w.

(** ** Marshal emitter (lines 129-219) *)

Definition marshalHeader (s : Struct) : string :=
  nl +:+ "func (strct " +:+ sName s +:+ ") MarshalJSON() ([]byte, error) {" +:+ nl +:+
  tab +:+ "lines := []string{}" +:+ nl +:+
  tab +:+ nl.

(** Line 145. *)
Definition requiredRemark (f : Field) : string :=
  "    // " +:+ dq +:+ Name f +:+ dq +:+ " field is required" +:+ nl.

(** Lines 149-152. *)
Definition requiredGuard (f : Field) : string :=
  "    if strct." +:+ Name f +:+ " == nil {" +:+ nl +:+
  "        return nil, errors.New(" +:+ dq +:+ MarshalName f +:+ " is a required field" +:+ dq +:+ ")" +:+ nl +:+
  "    }" +:+ nl.

(** Line 154. *)
Definition requiredUnchecked : string :=
  "    // only required object types supported for marshal checking (for now)" +:+ nl.

(** Lines 162-164. *)
Definition omitLiteralOpen (f : Field) (zeroVal : string) : string :=
  tab +:+ "// omit empty" +:+ nl +:+
  tab +:+ "if strct." +:+ Name f +:+ " != " +:+ zeroVal +:+ " {" +:+ nl.

(** Lines 167-169. *)
Definition omitReflectOpen (f : Field) : string :=
  tab +:+ "// Check using reflect.Value" +:+ nl +:+
  tab +:+ "if reflect.ValueOf(strct." +:+ Name f +:+ ").IsZero() {" +:+ nl.

(** Lines 174-178. *)
Definition marshalOpen (f : Field) : string :=
  "  // Marshal the " +:+ dq +:+ MarshalName f +:+ dq +:+ " field" +:+ nl +:+
  tab +:+ "if tmp, err := json.Marshal(strct." +:+ Name f +:+ "); err != nil {" +:+ nl +:+
  tab +:+ tab +:+ "return nil, err" +:+ nl +:+
  tab +:+ "} else {" +:+ nl.

(** Line 180. *)
Definition marshalAppend (f : Field) : string :=
  "lines = append(lines, fmt.Sprintf(" +:+ dq +:+ "\" +:+ dq +:+ MarshalName f +:+
  "\" +:+ dq +:+ ": %s" +:+ dq +:+ ", tmp))".

(** Lines 183-187. *)
Definition omitClose : string :=
  nl +:+ tab +:+ "}" +:+ nl +:+ "}" +:+ nl +:+ nl.

(** Lines 189-192. *)
Definition plainClose : string :=
  nl +:+ tab +:+ tab +:+ tab +:+ tab +:+ "}" +:+ nl +:+ nl.

(** Lines 200-210. *)
Definition marshalAdditional : string :=
  "    // Marshal any additional Properties" +:+ nl +:+
  "    for k, v := range strct.AdditionalProperties {" +:+
  nl +:+
  tab +:+ tab +:+ tab +:+ "if tmp, err := json.Marshal(v); err != nil {" +:+ nl +:+
  tab +:+ tab +:+ tab +:+ tab +:+ "return nil, err" +:+ nl +:+
  tab +:+ tab +:+ tab +:+ "} else {" +:+ nl +:+
  tab +:+ tab +:+ tab +:+ tab +:+ "lines = append(lines, fmt.Sprintf(" +:+ dq +:+ "\" +:+ dq +:+
    "%s\" +:+ dq +:+ ": %s" +:+ dq +:+ ", k, tmp))" +:+ nl +:+
  tab +:+ tab +:+ tab +:+ "}" +:+ nl +:+
  tab +:+ "}" +:+ nl.

(** Lines 215-218. *)
Definition marshalFooter : string :=
  nl +:+ tab +:+ "return []byte(" +:+ dq +:+ "{" +:+ dq +:+ " + strings.Join(lines, " +:+
    dq +:+ ", " +:+ dq +:+ ") + " +:+ dq +:+ "}" +:+ dq +:+ "), nil" +:+ nl +:+
  "}" +:+ nl.

(** The body of the loop over the fields (lines 140-193); the
    [continue] of line 142 is the first branch. *)
Definition emitMarshalField (f : Field) : Emitter :=
  if String.eqb (MarshalName f) "-" then skip
  else
    (if Required f then
       emit (requiredRemark f) >>
       (if HasPrefix (MarshalType f) "*" then
          need "errors" >> emit (requiredGuard f)
        else emit requiredUnchecked)
     else skip) >>
    (if OmitEmpty f then
       let '(zeroVal, haveZeroVal) := getZeroValueCheck (MarshalType f) in
       if haveZeroVal then emit (omitLiteralOpen f zeroVal)
       else emit (omitReflectOpen f)
     else skip) >>
    emit (marshalOpen f) >>
    need "fmt" >>
    emit (marshalAppend f) >>
    (if OmitEmpty f then emit omitClose else emit plainClose).

(** Lines 196-212. *)
Definition emitMarshalAdditional (s : Struct) : Emitter :=
  if negb (String.eqb (AdditionalType s) "") then
    if negb (String.eqb (AdditionalType s) "false") then
      need "fmt" >> emit marshalAdditional
    else skip
  else skip.

Definition emitMarshalCode (s : Struct) : Emitter :=
  emit (marshalHeader s) >>
  (if bool_decide (0 < size (Fields s)) then
     forEach (getOrderedFieldNames (Fields s))
             (fun fieldKey => emitMarshalField (Fields s !!! fieldKey))
   else skip) >>
  emitMarshalAdditional s >>
  need "strings" >>
  emit marshalFooter.

(** ** Unmarshal emitter (lines 221-351) *)

(** Lines 223-227. *)
Definition caseDirect (f : Field) : string :=
  "        case " +:+ dq +:+ UnmarshalName f +:+ dq +:+ ":" +:+ nl +:+
  "            if err := json.Unmarshal([]byte(v), &strct." +:+ Name f +:+ "); err != nil {" +:+ nl +:+
  "                return err" +:+ nl +:+
  "             }" +:+ nl.

(** Lines 236-243. *)
Definition caseTextToInt (f : Field) : string :=
  "        case " +:+ dq +:+ UnmarshalName f +:+ dq +:+ ":" +:+ nl +:+
  "            if newVal, err := strconv.ParseInt(v, 10, 0); err != nil {" +:+ nl +:+
  "                return err" +:+ nl +:+
  "             }" +:+ nl +:+
  "            if err := json.Unmarshal([]byte(newVal), &strct." +:+ Name f +:+ "); err != nil {" +:+ nl +:+
  "                return err" +:+ nl +:+
  "             }" +:+ nl.

(** Lines 253-259. *)
Definition caseIntToText (f : Field) : string :=
  "        case " +:+ dq +:+ UnmarshalName f +:+ dq +:+ ":" +:+ nl +:+
  tab +:+ tab +:+ tab +:+ "var intVal int" +:+ nl +:+
  "            if err := json.Unmarshal([]byte(v), &intVal); err != nil {" +:+ nl +:+
  "                return err" +:+ nl +:+
  "             }" +:+ nl +:+
  "            strct." +:+ Name f +:+ " = strconv.Itoa(intVal)" +:+ nl.

Definition emitUnmarshalFieldCode (f : Field) : Emitter :=
  if String.eqb (MarshalType f) (UnmarshalType f) then emit (caseDirect f)
  else if String.eqb (UnmarshalType f) "string" then
    (if String.eqb (MarshalType f) "int" then emit (caseTextToInt f) else skip)
  else if String.eqb (UnmarshalType f) "int" then
    (if String.eqb (MarshalType f) "string" then
       need "strconv" >> emit (caseIntToText f)
     else skip)
  else skip.

(** Lines 273-275. *)
Definition unmarshalHeader (s : Struct) : string :=
  nl +:+ "func (strct *" +:+ sName s +:+ ") UnmarshalJSON(b []byte) error {" +:+ nl.

(** Line 280. *)
Definition receivedInit (f : Field) : string :=
  "    " +:+ UnmarshalName f +:+ "Received := false" +:+ nl.

(** Lines 284-287. *)
Definition unmarshalParse : string :=
  "    var jsonMap map[string]json.RawMessage" +:+ nl +:+
  "    if err := json.Unmarshal(b, &jsonMap); err != nil {" +:+ nl +:+
  "        return err" +:+ nl +:+
  "    }".

(** Lines 290-295. *)
Definition unmarshalLoopOpen : string :=
  nl +:+
  "    // parse all the defined properties" +:+ nl +:+
  "    for k, v := range jsonMap {" +:+ nl +:+
  "        if v != nil {" +:+ nl +:+
  tab +:+ tab +:+ tab +:+ "switch k {" +:+ nl.

(** Line 307. *)
Definition receivedSet (f : Field) : string :=
  "            " +:+ UnmarshalName f +:+ "Received = true" +:+ nl.

(** Lines 316-318. *)
Definition defaultContinue : string :=
  "        default:" +:+ nl +:+
  "            continue" +:+ nl.

(** Lines 320-330. *)
Definition defaultStore (ty : string) : string :=
  "        default:" +:+ nl +:+
  "            // an additional " +:+ dq +:+ ty +:+ dq +:+ " value" +:+ nl +:+
  "            var additionalValue " +:+ ty +:+ nl +:+
  "            if err := json.Unmarshal([]byte(v), &additionalValue); err != nil {" +:+ nl +:+
  "                return err // invalid additionalProperty" +:+ nl +:+
  "            }" +:+ nl +:+
  "            if strct.AdditionalProperties == nil {" +:+ nl +:+
  "                strct.AdditionalProperties = make(map[string]" +:+ ty +:+ ", 0)" +:+ nl +:+
  "            }" +:+ nl +:+
  "            strct.AdditionalProperties[k]= additionalValue" +:+ nl.

(** Lines 333-334. *)
Definition unmarshalLoopClose : string :=
  "        }}" +:+ nl +:+
  "    }" +:+ nl.

(** Lines 341-345. *)
Definition receivedCheck (f : Field) : string :=
  "    // check if " +:+ UnmarshalName f +:+ " (a required property) was received" +:+ nl +:+
  "    if !" +:+ UnmarshalName f +:+ "Received {" +:+ nl +:+
  "        return errors.New(" +:+ dq +:+ "\" +:+ dq +:+ UnmarshalName f +:+ "\" +:+ dq +:+
    " is required but was not present" +:+ dq +:+ ")" +:+ nl +:+
  "    }" +:+ nl.

(** Lines 349-350. *)
Definition unmarshalFooter : string :=
  "    return nil" +:+ nl +:+
  "}" +:+ nl.

(** Body of the first loop (lines 278-281). *)
Definition emitReceivedInit (f : Field) : Emitter :=
  if Required f then emit (receivedInit f) else skip.

(** Body of the second loop (lines 298-308); the [continue] of line 301
    is the first branch. *)
Definition emitUnmarshalCase (f : Field) : Emitter :=
  if String.eqb (UnmarshalName f) "-" then skip
  else
    emitUnmarshalFieldCode f >>
    (if Required f then emit (receivedSet f) else skip).

(** Lines 312-332. *)
Definition emitUnmarshalDefault (s : Struct) : Emitter :=
  if negb (String.eqb (AdditionalType s) "") then
    if String.eqb (AdditionalType s) "false" then
      need "fmt" >> emit defaultContinue
    else emit (defaultStore (AdditionalType s))
  else skip.

(** Body of the third loop (lines 338-346). *)
Definition emitReceivedCheck (f : Field) : Emitter :=
  if Required f then need "errors" >> emit (receivedCheck f) else skip.

Definition emitUnmarshalCode (s : Struct) : Emitter :=
  need "encoding/json" >>
  emit (unmarshalHeader s) >>
  forEach (getOrderedFieldNames (Fields s))
          (fun fieldKey => emitReceivedInit (Fields s !!! fieldKey)) >>
  emit unmarshalParse >>
  emit unmarshalLoopOpen >>
  forEach (getOrderedFieldNames (Fields s))
          (fun fieldKey => emitUnmarshalCase (Fields s !!! fieldKey)) >>
  emitUnmarshalDefault s >>
  emit unmarshalLoopClose >>
  forEach (getOrderedFieldNames (Fields s))
          (fun fieldKey => emitReceivedCheck (Fields s !!! fieldKey)) >>
  emit unmarshalFooter.

(** ** Map-view emitter (lines 353-368) *)

Definition toMapHeader (s : Struct) : string :=
  nl +:+ "func (strct *" +:+ sName s +:+ ") ToMap() map[string]any {" +:+ nl.

Definition toMapMake : string := "    m := make(map[string]any)" +:+ nl.

(** Line 363. *)
Definition toMapEntry (f : Field) : string :=
  "    m[" +:+ dq +:+ MarshalName f +:+ dq +:+ "] = strct." +:+ Name f +:+ nl.

Definition toMapFooter : string := "    return m" +:+ nl +:+ "}" +:+ nl.

Definition emitToMapCode (s : Struct) (w : Writer) : Writer :=
  let w := Fprintf (toMapHeader s) w in
  let w := Fprintf toMapMake w in
  let w := forEachW (getOrderedFieldNames (Fields s))
                    (fun fieldKey => Fprintf (toMapEntry (Fields s !!! fieldKey))) w in
  Fprintf toMapFooter w.

(** ** Comments and package name (lines 370-394) *)

Definition outputNameAndDescriptionComment (name description : string) (w : Writer) : Writer :=
  match Index description nl with
  | None => Fprintf ("// " +:+ name +:+ " " +:+ description +:+ nl) w
  | Some _ =>
      let dl := SplitLines description in
      Fprintf ("// " +:+ name +:+ " " +:+ Join dl (nl +:+ "// ") +:+ nl) w
  end.

Definition outputFieldDescriptionComment (description : string) (w : Writer) : Writer :=
  match Index description nl with
  | None => Fprintf (nl +:+ "  // " +:+ description +:+ nl) w
  | Some _ =>
      let dl := SplitLines description in
      Fprintf (nl +:+ "  // " +:+ Join dl (nl +:+ "  // ") +:+ nl) w
  end.

Definition cleanPackageName (pkg : string) : string :=
  let pkg := dropByte "." pkg in
  let pkg := dropByte "-" pkg in
  pkg.

(** ** Orchestrator (lines 60-127) *)

Definition generatedMarker : string :=
  "// Code generated by schema-generate. DO NOT EDIT." +:+ nl.

Definition packageLine (pkg : string) : string :=
  "package " +:+ cleanPackageName pkg +:+ nl.

(** Line 85. *)
Definition importLine (k : string) : string :=
  "    " +:+ dq +:+ k +:+ dq +:+ nl.

(** Lines 93-95. *)
Definition outputAlias (a : Field) (w : Writer) : Writer :=
  let w := Fprintf nl w in
  let w := Fprintf ("// " +:+ Name a +:+ nl) w in
  Fprintf ("type " +:+ Name a +:+ " " +:+ UnmarshalType a +:+ nl) w.

(** Lines 114-119. *)
Definition outputFieldDecl (f : Field) (w : Writer) : Writer :=
  let w := if negb (String.eqb (Description f) "")
           then outputFieldDescriptionComment (Description f) w else w in
  Fprintf ("  " +:+ Name f +:+ " " +:+ MarshalType f +:+ nl) w.

(** Lines 101-122. *)
Definition outputStructDecl (s : Struct) (w : Writer) : Writer :=
  let w := Fprintf nl w in
  let w := outputNameAndDescriptionComment (sName s) (sDescription s) w in
  let w := Fprintf ("type " +:+ sName s +:+ " struct {" +:+ nl) w in
  let w := forEachW (getOrderedFieldNames (Fields s))
                    (fun fieldKey => outputFieldDecl (Fields s !!! fieldKey)) w in
  Fprintf ("}" +:+ nl) w.

(** Lines 73-80: the three emitters write to [codeBuf] and share
    [imports]. *)
Definition emitStructCode (s : Struct) : Emitter :=
  if GenerateCode s then
    emitMarshalCode s >> emitUnmarshalCode s >> onWriter (emitToMapCode s)
  else skip.

Definition generateCode (structs : gmap string Struct) : Ctx :=
  forEach (getOrderedStructNames structs)
          (fun k => emitStructCode (structs !!! k))
          (mkCtx EmptyString ∅).

(** Lines 82-88: [for k := range imports] visits the keys in the order
    [visit], which Go leaves unspecified. *)
Definition outputImports (imports : gmap string bool) (visit : list string) (w : Writer) : Writer :=
  if bool_decide (0 < size imports) then
    let w := Fprintf (nl +:+ "import (" +:+ nl) w in
    let w := forEachW visit (fun k => Fprintf (importLine k)) w in
    Fprintf (")" +:+ nl) w
  else w.

(** [Output w g pkg], for the order [visit] in which the [range] of
    line 84 hands out the keys of [imports]. *)
Definition Output (visit : list string) (w : Writer) (g : Generator) (pkg : string) : Writer :=
  let structs := Structs g in
  let aliases := Aliases g in
  let w := Fprintf generatedMarker w in
  let w := Fprintf nl w in
  let w := Fprintf (packageLine pkg) w in
  let code := generateCode structs in
  let w := outputImports (imports code) visit w in
  let w := forEachW (getOrderedFieldNames aliases)
                    (fun k => outputAlias (aliases !!! k)) w in
  let w := forEachW (getOrderedStructNames structs)
                    (fun k => outputStructDecl (structs !!! k)) w in
  Fprintf (out code) w.

(** One run of [Output] on an empty writer: the text [res] is what some
    admissible visiting order of [imports] produces. *)
Definition OutputRun (g : Generator) (pkg : string) (res : string) : Prop :=
  exists visit, rangeOrder (imports (generateCode (Structs g))) visit /\
                res = Output visit EmptyString g pkg.

(** The text an emitter writes, read off an empty context. *)
Definition textOf (e : Emitter) : string := out (e (mkCtx EmptyString ∅)).

(** An emitter only appends, and what it appends depends neither on the
    text before it nor on the facilities registered so far. *)
Definition AppendOnly (e : Emitter) : Prop :=
  forall c, out (e c) = out c +:+ textOf e.

(** The same for a callee that is only given the writer. *)
Definition AppendOnlyW (f : Writer -> Writer) : Prop :=
  forall w, f w = w +:+ f EmptyString.

(** An emitter never unregisters a facility. *)
Definition Keeps (e : Emitter) : Prop :=
  forall c k, imports c !! k = Some true -> imports (e c) !! k = Some true.

(** The declared fields of a map in the order the emitters visit them. *)
Definition orderedFields (m : gmap string Field) : list Field :=
  map (fun k => m !!! k) (getOrderedFieldNames m).

(** The records of a map in the order [Output] visits them. *)
Definition orderedStructs (m : gmap string Struct) : list Struct :=
  map (fun k => m !!! k) (getOrderedStructNames m).

Definition withAdditionalType (a : string) (s : Struct) : Struct :=
  mkStruct (sName s) (sDescription s) (Fields s) a (GenerateCode s).

Definition withFields (m : gmap string Field) (s : Struct) : Struct :=
  mkStruct (sName s) (sDescription s) m (AdditionalType s) (GenerateCode s).

Definition withRequired (b : bool) (f : Field) : Field :=
  mkField (Name f) (Description f) (MarshalName f) (UnmarshalName f)
          (MarshalType f) (UnmarshalType f) b (OmitEmpty f).

(** The type pairs for which [emitUnmarshalFieldCode] has a branch that
    writes: equal types, text read into an integer, integer read into
    text. *)
Definition hasCase (f : Field) : bool :=
  String.eqb (MarshalType f) (UnmarshalType f)
  || (String.eqb (UnmarshalType f) "string" && String.eqb (MarshalType f) "int")
  || (String.eqb (UnmarshalType f) "int" && String.eqb (MarshalType f) "string").

(** The label every dispatch case opens with. *)
Definition caseLabel (f : Field) : string :=
  "        case " +:+ dq +:+ UnmarshalName f +:+ dq +:+ ":" +:+ nl.

(** ** Sample models *)

(** A record without additional-property support and one plain field. *)
Definition fldName : Field :=
  mkField "Name" "" "name" "name" "string" "string" false false.
Definition recPlain : Struct :=
  mkStruct "Person" "a person" {[ "Name" := fldName ]} "" true.

(** A record whose only field is required, pointer-typed and excluded
    from serialization. *)
Definition fldHidden : Field :=
  mkField "Owner" "" "-" "owner" "*Person" "*Person" true false.
Definition recHidden : Struct :=
  mkStruct "Account" "" {[ "Owner" := fldHidden ]} "" true.

(** A record with a required pointer field and a required plain field. *)
Definition fldOwner : Field :=
  mkField "Owner" "" "owner" "owner" "*Person" "*Person" true false.
Definition fldTitle : Field :=
  mkField "Title" "" "title" "title" "string" "string" true false.
Definition recAccount : Struct :=
  mkStruct "Account" "" {[ "Owner" := fldOwner; "Title" := fldTitle ]} "" true.

(** A record whose only field is required and excluded from reading. *)
Definition fldSecret : Field :=
  mkField "Secret" "" "secret" "-" "string" "string" true false.
Definition recVault : Struct :=
  mkStruct "Vault" "" {[ "Secret" := fldSecret ]} "" true.

(** A record with a plain field and a required field whose types differ
    by a pair the unmarshal emitter has no branch for. *)
Definition fldZip : Field :=
  mkField "Zip" "" "zip" "zip" "bool" "string" true false.
Definition recMixed : Struct :=
  mkStruct "Place" "" {[ "Name" := fldName; "Zip" := fldZip ]} "" true.

(** The same pair on a field that is not required. *)
Definition fldNote : Field :=
  mkField "Note" "" "note" "note" "bool" "string" false false.
Definition recNoted : Struct :=
  mkStruct "Place" "" {[ "Name" := fldName; "Note" := fldNote ]} "" true.

(** A record with an omit-empty field of a plain aggregate type and an
    integer field read from text. *)
Definition fldHome : Field :=
  mkField "Home" "" "home" "home" "Address" "Address" false true.
Definition fldAge : Field :=
  mkField "Age" "" "age" "age" "int" "string" false false.
Definition recResident : Struct :=
  mkStruct "Resident" "" {[ "Home" := fldHome; "Age" := fldAge ]} "" true.

Definition genPerson : Generator :=
  mkGenerator {[ "Person" := recPlain ]} ∅.

Definition genResident : Generator :=
  mkGenerator {[ "Resident" := recResident ]} ∅.

(** The three routines of a code-generating record, as they follow one
    another in the buffer. *)
Definition routinesOf (s : Struct) : string :=
  textOf (emitMarshalCode s) +:+ textOf (emitUnmarshalCode s) +:+ emitToMapCode s "".

(** The facility block for the visiting order [visit]. *)
Definition importBlock (visit : list string) : string :=
  nl +:+ "import (" +:+ nl +:+ cat (map importLine visit) +:+ ")" +:+ nl.

(** Does the byte [c] occur in [s]? *)
Fixpoint hasByte (c : ascii) (s : string) : bool :=
  match s with
  | EmptyString => false
  | String d r => Ascii.eqb d c || hasByte c r
  end.

(** Every line feed of [t] is its last byte or is followed by [p]. *)
Fixpoint linesStartWith (p t : string) : bool :=
  match t with
  | EmptyString => true
  | String c r =>
      (if Ascii.eqb c (ascii_of_nat 10)
       then String.eqb r EmptyString || String.prefix p r else true)
      && linesStartWith p r
  end.

(** A description of two lines. *)
Definition twoLines : string := "first line" +:+ nl +:+ "second line".

(** A record with a plain field and a field excluded from both
    directions. *)
Definition fldCache : Field :=
  mkField "Cache" "" "-" "-" "string" "string" false false.
Definition recCached : Struct :=
  mkStruct "Page" "" {[ "Name" := fldName; "Cache" := fldCache ]} "" true.

(** The facilities the emitters can register. *)
Definition marshalFacilities : list string := ["errors"; "fmt"; "strings"].
Definition unmarshalFacilities : list string :=
  ["encoding/json"; "errors"; "fmt"; "strconv"].
Definition facilities : list string :=
  ["encoding/json"; "errors"; "fmt"; "strconv"; "strings"].

(** Every entry of the map is [true] and its key is in [allowed]. *)
Definition Within (allowed : list string) (imps : gmap string bool) : Prop :=
  map_Forall (fun k v => v = true /\ k ∈ allowed) imps.

(** An emitter leaves every entry of [imports] as it is or sets it to
    [true], the latter only at keys in [allowed]. *)
Definition Registers (allowed : list string) (e : Emitter) : Prop :=
  forall c k, imports (e c) !! k = imports c !! k
              \/ (k ∈ allowed /\ imports (e c) !! k = Some true).

(** An emitter does not register [k]. *)
Definition Avoids (k : string) (e : Emitter) : Prop :=
  forall c, imports c !! k = None -> imports (e c) !! k = None.

(** A record without fields that allows additional properties. *)
Definition recBag : Struct := mkStruct "Bag" "" ∅ "int" true.

(** A model whose only record is declared but not code-generating. *)
Definition recShape : Struct :=
  mkStruct "Shape" "a shape" {[ "Name" := fldName ]} "" false.
Definition genShape : Generator :=
  mkGenerator {[ "Shape" := recShape ]} {[ "Id" := fldName ]}.

(** An omit-empty field of slice type. *)
Definition fldTags : Field :=
  mkField "Tags" "" "tags" "tags" "[]string" "[]string" false true.

(** ** The dispatch switch and what it runs for a key *)

(** The text written between the opening and the closing of the
    dispatch switch (lines 296-332): the second loop, then the default
    case. *)
Definition switchText (s : Struct) : string :=
  textOf (forEach (getOrderedFieldNames (Fields s))
                  (fun fieldKey => emitUnmarshalCase (Fields s !!! fieldKey)) >>
          emitUnmarshalDefault s).

(** Letters, digits, [_] and [-]. *)
Definition wordByte (c : ascii) : bool :=
  let n := nat_of_ascii c in
  (Nat.leb 48 n && Nat.leb n 57) || (Nat.leb 65 n && Nat.leb n 90)
  || (Nat.leb 97 n && Nat.leb n 122) || Nat.eqb n 95 || Nat.eqb n 45.

(** A name made of such bytes only: it holds no line feed, quote,
    backslash or punctuation that could end the place it is printed
    at. *)
Fixpoint plainName (s : string) : bool :=
  match s with
  | EmptyString => true
  | String c r => wordByte c && plainName r
  end.

(** The lines of a text that are not empty. *)
Definition codeLines (t : string) : list string :=
  filter (fun l => l <> EmptyString) (SplitLines t).

(** Lines, each closed by a line feed. *)
Definition unlines (ls : list string) : string :=
  cat (map (fun l => l +:+ nl) ls).

(** The emitter prints the label of every clause of the switch on a
    line of its own: [case "<key>":] for a field and [default:] for
    the default clause, both after eight spaces. *)
Definition caseLineOf (k : string) : string :=
  "        case " +:+ dq +:+ k +:+ dq +:+ ":".

Definition isCaseLine (l : string) : bool := String.prefix "        case " l.

Definition isDefaultLine (l : string) : bool := String.eqb l "        default:".

Definition isLabelLine (l : string) : bool := isCaseLine l || isDefaultLine l.

(** The statements of a clause: the lines up to the next label. *)
Fixpoint clauseBody (lines : list string) : list string :=
  match lines with
  | [] => []
  | l :: r => if isLabelLine l then [] else l :: clauseBody r
  end.

(** The statements of the first clause whose label line satisfies
    [test]. *)
Fixpoint findClause (test : string -> bool) (lines : list string) : option (list string) :=
  match lines with
  | [] => None
  | l :: r => if test l then Some (clauseBody r) else findClause test r
  end.

(** What a Go [switch k] made of the clauses in [lines] runs when [k]
    is the string [key]: the statements of the first clause labelled
    with [key]; failing that, those of the [default] clause if there is
    one; nothing otherwise.  (The labels are read as printed, which is
    how Go reads a string literal without quote or backslash.) *)
Definition switchRuns (key : string) (lines : list string) : list string :=
  match findClause (String.eqb (caseLineOf key)) lines with
  | Some body => body
  | None =>
      match findClause isDefaultLine lines with
      | Some body => body
      | None => []
      end
  end.

(** A line that holds no line feed and is neither the [default] label
    nor the label of the case for [key]. *)
Definition quietLine (key l : string) : Prop :=
  hasByte "010" l = false
  /\ isDefaultLine l = false
  /\ String.eqb (caseLineOf key) l = false.

(** A record whose only field has a key that carries a [default] clause
    of its own into the switch. *)
Definition fldInj : Field :=
  mkField "X" ""
          "x"
          ("x" +:+ dq +:+ ":" +:+ nl +:+
           "        default:" +:+ nl +:+
           "            return nil" +:+ nl +:+
           "        case " +:+ dq +:+ "y")
          "string" "string" false false.
Definition recInj : Struct :=
  mkStruct "Inj" "" {[ "X" := fldInj ]} "" true.

(** * Properties *)

(** ** Text algebra *)

Lemma append_assoc (a b c : string) : (a +:+ b) +:+ c = a +:+ (b +:+ c).
Proof.
  induction a as [|x a IH]; [reflexivity|].
  change (String x ((a +:+ b) +:+ c) = String x (a +:+ (b +:+ c))).
  now rewrite IH.
Qed.

Lemma append_nil_r (a : string) : a +:+ EmptyString = a.
Proof.
  induction a as [|x a IH]; [reflexivity|].
  change (String x (a +:+ EmptyString) = String x a). now rewrite IH.
Qed.

Lemma append_nil_l (a : string) : EmptyString +:+ a = a.
Proof. reflexivity. Qed.

Lemma cat_nil : cat [] = EmptyString.
Proof. reflexivity. Qed.

Lemma cat_cons (x : string) (l : list string) : cat (x :: l) = x +:+ cat l.
Proof. reflexivity. Qed.

Lemma cat_app (l1 l2 : list string) : cat (l1 ++ l2) = cat l1 +:+ cat l2.
Proof.
  induction l1 as [|x l1 IH]; [reflexivity|].
  cbn [app]. rewrite !cat_cons, IH. now rewrite append_assoc.
Qed.

(** ** Ordering *)

Lemma fillKeys_go (done rest : list string) :
  fold_left (fun '(keys, idx) k => (<[idx := k]> keys, S idx)) rest
            (done ++ replicate (length rest) EmptyString, length done)
  = (done ++ rest, length done + length rest).
Proof.
  revert done. induction rest as [|k rest IH]; intros done; cbn [fold_left length replicate].
  - now rewrite Nat.add_0_r.
  - assert (Hins : <[length done := k]> (done ++ EmptyString :: replicate (length rest) EmptyString)
                   = (done ++ [k]) ++ replicate (length rest) EmptyString).
    { rewrite insert_app_r_alt by lia. rewrite Nat.sub_diag. cbn.
      now rewrite <- app_assoc. }
    rewrite Hins.
    replace (S (length done)) with (length (done ++ [k])) by (rewrite length_app; cbn; lia).
    rewrite IH. rewrite <- app_assoc. cbn. rewrite length_app. cbn. f_equal. lia.
Qed.

(** Filling the slice by index reproduces the visiting order. *)
Lemma fillKeys_id (visit : list string) : fillKeys visit = visit.
Proof.
  unfold fillKeys. pose proof (fillKeys_go [] visit) as H.
  cbn [app length] in H. now rewrite H.
Qed.

Lemma orderedKeys_sort (visit : list string) : orderedKeys visit = sortStrings visit.
Proof. unfold orderedKeys. now rewrite fillKeys_id. Qed.

Lemma sortStrings_Sorted (l : list string) : Sorted String.le (sortStrings l).
Proof. apply (Sorted_merge_sort String.le). Qed.

Lemma sortStrings_StronglySorted (l : list string) : StronglySorted String.le (sortStrings l).
Proof. apply (StronglySorted_merge_sort String.le). Qed.

Lemma sortStrings_Permutation (l : list string) : sortStrings l ≡ₚ l.
Proof. apply merge_sort_Permutation. Qed.

(** Sorting forgets the order the keys came in. *)
Lemma sortStrings_canonical (l1 l2 : list string) :
  l1 ≡ₚ l2 -> sortStrings l1 = sortStrings l2.
Proof.
  intros Hp. apply (Sorted_unique String.le); try apply sortStrings_Sorted.
  now rewrite !sortStrings_Permutation.
Qed.

(** A sorted list is the sort of any of its permutations. *)
Lemma sortStrings_unique (l sorted : list string) :
  StronglySorted String.le sorted -> sorted ≡ₚ l -> sortStrings l = sorted.
Proof.
  intros Hs Hp. apply (StronglySorted_unique String.le);
    [apply sortStrings_StronglySorted | exact Hs |].
  now rewrite sortStrings_Permutation.
Qed.

(** The result of the ordering helpers does not depend on the order in
    which [range] visits the map. *)
Lemma orderedKeys_range_indep {V} (m : gmap string V) (visit : list string) :
  rangeOrder m visit -> orderedKeys visit = orderedKeys (map_to_list m).*1.
Proof.
  intros Hv. rewrite !orderedKeys_sort. now apply sortStrings_canonical.
Qed.

Lemma orderedKeys_Permutation {V} (m : gmap string V) :
  orderedKeys (map_to_list m).*1 ≡ₚ (map_to_list m).*1.
Proof. rewrite orderedKeys_sort. apply sortStrings_Permutation. Qed.

Lemma orderedKeys_NoDup {V} (m : gmap string V) : NoDup (orderedKeys (map_to_list m).*1).
Proof. rewrite orderedKeys_Permutation. apply NoDup_fst_map_to_list. Qed.

Lemma orderedKeys_elem_of {V} (m : gmap string V) (k : string) :
  k ∈ orderedKeys (map_to_list m).*1 <-> is_Some (m !! k).
Proof.
  rewrite orderedKeys_Permutation. rewrite list_elem_of_fmap. split.
  - intros [[k' v] [-> Hin]]. apply elem_of_map_to_list in Hin. now exists v.
  - intros [v Hv]. exists (k, v). split; [reflexivity|]. now apply elem_of_map_to_list.
Qed.

(** ** Emitters only append *)

Create HintDb emitters.

Lemma textOf_emit (t : string) : textOf (emit t) = t.
Proof. reflexivity. Qed.

Lemma textOf_need (k : string) : textOf (need k) = EmptyString.
Proof. reflexivity. Qed.

Lemma textOf_skip : textOf skip = EmptyString.
Proof. reflexivity. Qed.

Lemma AppendOnly_emit (t : string) : AppendOnly (emit t).
Proof. intros c. reflexivity. Qed.

Lemma AppendOnly_need (k : string) : AppendOnly (need k).
Proof. intros c. cbn. now rewrite append_nil_r. Qed.

Lemma AppendOnly_skip : AppendOnly skip.
Proof. intros c. cbn. now rewrite append_nil_r. Qed.

Lemma AppendOnly_seq (a b : Emitter) :
  AppendOnly a -> AppendOnly b -> AppendOnly (a >> b).
Proof.
  intros Ha Hb c. unfold textOf, seq. rewrite (Hb (a c)), (Hb (a _)), !Ha.
  cbn [out]. now rewrite append_nil_l, append_assoc.
Qed.

Lemma textOf_seq (a b : Emitter) :
  AppendOnly a -> AppendOnly b -> textOf (a >> b) = textOf a +:+ textOf b.
Proof.
  intros Ha Hb. unfold textOf at 1. unfold seq. now rewrite (Hb (a _)).
Qed.

Lemma AppendOnly_if (b : bool) (x y : Emitter) :
  AppendOnly x -> AppendOnly y -> AppendOnly (if b then x else y).
Proof. now destruct b. Qed.

Lemma forEach_cons {A} (x : A) (l : list A) (body : A -> Emitter) (c : Ctx) :
  forEach (x :: l) body c = forEach l body (body x c).
Proof. reflexivity. Qed.

Lemma out_forEach {A} (l : list A) (body : A -> Emitter) (c : Ctx) :
  (forall x, AppendOnly (body x)) ->
  out (forEach l body c) = out c +:+ cat (map (fun x => textOf (body x)) l).
Proof.
  intros Hb. revert c. induction l as [|x l IH]; intros c.
  - cbn. now rewrite append_nil_r.
  - rewrite forEach_cons, IH, Hb. cbn [map]. now rewrite cat_cons, append_assoc.
Qed.

Lemma textOf_forEach {A} (l : list A) (body : A -> Emitter) :
  (forall x, AppendOnly (body x)) ->
  textOf (forEach l body) = cat (map (fun x => textOf (body x)) l).
Proof. intros Hb. unfold textOf. now rewrite out_forEach. Qed.

Lemma AppendOnly_forEach {A} (l : list A) (body : A -> Emitter) :
  (forall x, AppendOnly (body x)) -> AppendOnly (forEach l body).
Proof. intros Hb c. now rewrite textOf_forEach, out_forEach. Qed.

Lemma AppendOnlyW_Fprintf (t : string) : AppendOnlyW (Fprintf t).
Proof. intros w. reflexivity. Qed.

Lemma forEachW_text {A} (l : list A) (body : A -> Writer -> Writer) (w : Writer) :
  (forall x, AppendOnlyW (body x)) ->
  forEachW l body w = w +:+ cat (map (fun x => body x EmptyString) l).
Proof.
  intros Hb. revert w. induction l as [|x l IH]; intros w.
  - cbn. now rewrite append_nil_r.
  - change (forEachW (x :: l) body w) with (forEachW l body (body x w)).
    rewrite IH, Hb. cbn [map]. now rewrite cat_cons, append_assoc.
Qed.

Lemma AppendOnly_onWriter (f : Writer -> Writer) :
  AppendOnlyW f -> AppendOnly (onWriter f).
Proof. intros Hf c. unfold textOf. cbn. apply Hf. Qed.

Lemma textOf_onWriter (f : Writer -> Writer) : textOf (onWriter f) = f EmptyString.
Proof. reflexivity. Qed.

#[export] Hint Resolve AppendOnly_emit AppendOnly_need AppendOnly_skip AppendOnly_seq
  AppendOnly_if AppendOnly_forEach AppendOnly_onWriter AppendOnlyW_Fprintf : emitters.

Lemma AppendOnly_emitMarshalField (f : Field) : AppendOnly (emitMarshalField f).
Proof.
  unfold emitMarshalField. destruct (getZeroValueCheck (MarshalType f)) as [z [|]];
    auto 10 with emitters.
Qed.

Lemma AppendOnly_emitMarshalAdditional (s : Struct) : AppendOnly (emitMarshalAdditional s).
Proof. unfold emitMarshalAdditional. auto 10 with emitters. Qed.

Lemma AppendOnly_emitMarshalCode (s : Struct) : AppendOnly (emitMarshalCode s).
Proof.
  unfold emitMarshalCode.
  pose proof AppendOnly_emitMarshalField. pose proof AppendOnly_emitMarshalAdditional.
  auto 10 with emitters.
Qed.

Lemma AppendOnly_emitUnmarshalFieldCode (f : Field) : AppendOnly (emitUnmarshalFieldCode f).
Proof. unfold emitUnmarshalFieldCode. auto 10 with emitters. Qed.

Lemma AppendOnly_emitReceivedInit (f : Field) : AppendOnly (emitReceivedInit f).
Proof. unfold emitReceivedInit. auto with emitters. Qed.

Lemma AppendOnly_emitUnmarshalCase (f : Field) : AppendOnly (emitUnmarshalCase f).
Proof.
  unfold emitUnmarshalCase. pose proof AppendOnly_emitUnmarshalFieldCode.
  auto 10 with emitters.
Qed.

Lemma AppendOnly_emitUnmarshalDefault (s : Struct) : AppendOnly (emitUnmarshalDefault s).
Proof. unfold emitUnmarshalDefault. auto 10 with emitters. Qed.

Lemma AppendOnly_emitReceivedCheck (f : Field) : AppendOnly (emitReceivedCheck f).
Proof. unfold emitReceivedCheck. auto with emitters. Qed.

#[export] Hint Resolve AppendOnly_emitMarshalField AppendOnly_emitMarshalAdditional
  AppendOnly_emitMarshalCode
  AppendOnly_emitUnmarshalFieldCode AppendOnly_emitReceivedInit
  AppendOnly_emitUnmarshalCase AppendOnly_emitUnmarshalDefault
  AppendOnly_emitReceivedCheck : emitters.

Lemma AppendOnly_emitUnmarshalCode (s : Struct) : AppendOnly (emitUnmarshalCode s).
Proof. unfold emitUnmarshalCode. auto 20 with emitters. Qed.

(** The text of the map view, for any writer. *)
Lemma emitToMapCode_text (s : Struct) (w : Writer) :
  emitToMapCode s w =
  w +:+ toMapHeader s +:+ toMapMake +:+
  cat (map (fun k => toMapEntry (Fields s !!! k)) (getOrderedFieldNames (Fields s))) +:+
  toMapFooter.
Proof.
  unfold emitToMapCode. cbv zeta. rewrite forEachW_text by auto with emitters.
  unfold Fprintf. cbn [append]. now rewrite !append_assoc.
Qed.

Lemma AppendOnlyW_emitToMapCode (s : Struct) : AppendOnlyW (emitToMapCode s).
Proof. intros w. now rewrite !emitToMapCode_text. Qed.

#[export] Hint Resolve AppendOnly_emitUnmarshalCode AppendOnlyW_emitToMapCode : emitters.

Lemma AppendOnly_emitStructCode (s : Struct) : AppendOnly (emitStructCode s).
Proof. unfold emitStructCode. auto 10 with emitters. Qed.

#[export] Hint Resolve AppendOnly_emitStructCode : emitters.

(** ** Zero-value resolver *)

(** C7: the resolver is a total lookup on the descriptor: a ["*"] or
    ["[]"] prefix gives [("nil", true)], ["bool"] gives [("false", true)],
    ["int"] and ["float64"] give [("0", true)], ["string"] gives the
    two-quote literal, ["nil"] and ["array"] give [("nil", true)], and
    every other descriptor gives [("", false)]. *)
Theorem getZeroValueCheck_table (t : string) :
  (HasPrefix t "*" = true \/ HasPrefix t "[]" = true ->
     getZeroValueCheck t = ("nil", true)) /\
  (t = "bool" -> getZeroValueCheck t = ("false", true)) /\
  (t = "int" \/ t = "float64" -> getZeroValueCheck t = ("0", true)) /\
  (t = "string" -> getZeroValueCheck t = (dq +:+ dq, true)) /\
  (t = "nil" \/ t = "array" -> getZeroValueCheck t = ("nil", true)) /\
  (HasPrefix t "*" = false -> HasPrefix t "[]" = false ->
   t ∉ ["bool"; "int"; "float64"; "string"; "nil"; "array"] ->
     getZeroValueCheck t = ("", false)).
Proof.
  repeat split.
  - unfold getZeroValueCheck. intros [-> | ->]; [reflexivity|].
    now destruct (HasPrefix t "*").
  - now intros ->.
  - now intros [-> | ->].
  - now intros ->.
  - now intros [-> | ->].
  - intros Hp Hs Hn. unfold getZeroValueCheck. rewrite Hp, Hs.
    repeat match goal with
    | |- context [String.eqb t ?k] =>
        destruct (String.eqb_spec t k) as [-> | _];
        [exfalso; apply Hn; set_solver |]
    end.
    reflexivity.
Qed.

(** ** Map view *)

(** Looking the sorted keys up again yields exactly the entries of the
    map, each once. *)
Lemma orderedKeys_lookup_Permutation {V} `{!Inhabited V} (m : gmap string V) :
  map (fun k => (k, m !!! k)) (orderedKeys (map_to_list m).*1) ≡ₚ map_to_list m.
Proof.
  change (map ?f ?l) with (f <$> l). rewrite orderedKeys_Permutation.
  rewrite <- list_fmap_compose.
  rewrite <- (list_fmap_id (map_to_list m)) at 2.
  apply eq_subrelation; [apply _|]. apply list_fmap_ext.
  intros i [k v] Hi. cbn. f_equal.
  apply lookup_total_correct, elem_of_map_to_list.
  now apply list_elem_of_lookup_2 in Hi.
Qed.

Lemma orderedFields_Permutation (m : gmap string Field) :
  orderedFields m ≡ₚ (map_to_list m).*2.
Proof.
  rewrite <- (orderedKeys_lookup_Permutation m).
  unfold orderedFields, getOrderedFieldNames.
  change (map ?f ?l) with (f <$> l). now rewrite <- list_fmap_compose.
Qed.

Lemma orderedFields_elem_of (m : gmap string Field) (k : string) (f : Field) :
  m !! k = Some f -> f ∈ orderedFields m.
Proof.
  intros Hk. rewrite orderedFields_Permutation. apply list_elem_of_fmap.
  exists (k, f). split; [reflexivity|]. now apply elem_of_map_to_list.
Qed.

(** C9: the map view is the line opening [ToMap] for the record, the
    creation of the map, one assignment
    [m["<MarshalName>"] = strct.<Name>] per declared field in sorted
    field order, then [return m] and the closing brace; a field named
    ["-"] gets its assignment under the key ["-"] like any other; the
    record's [AdditionalType] plays no part and no other entry is
    written. *)
Theorem emitToMapCode_entries (s : Struct) (w : Writer) :
  emitToMapCode s w =
    w +:+
    nl +:+ "func (strct *" +:+ sName s +:+ ") ToMap() map[string]any {" +:+ nl +:+
    "    m := make(map[string]any)" +:+ nl +:+
    cat (map (fun f => "    m[" +:+ dq +:+ MarshalName f +:+ dq +:+ "] = strct." +:+
                       Name f +:+ nl)
             (orderedFields (Fields s))) +:+
    "    return m" +:+ nl +:+
    "}" +:+ nl
  /\ orderedFields (Fields s)
       = map (fun k => Fields s !!! k) (getOrderedFieldNames (Fields s))
  /\ Sorted String.le (getOrderedFieldNames (Fields s))
  /\ map (fun k => (k, Fields s !!! k)) (getOrderedFieldNames (Fields s))
       ≡ₚ map_to_list (Fields s)
  /\ (forall f, MarshalName f = "-" ->
        "    m[" +:+ dq +:+ MarshalName f +:+ dq +:+ "] = strct." +:+ Name f +:+ nl
        = "    m[" +:+ dq +:+ "-" +:+ dq +:+ "] = strct." +:+ Name f +:+ nl)
  /\ (forall a, emitToMapCode (withAdditionalType a s) w = emitToMapCode s w).
Proof.
  split.
  { rewrite emitToMapCode_text. unfold orderedFields. rewrite map_map.
    unfold toMapHeader, toMapMake, toMapEntry, toMapFooter.
    now rewrite !append_assoc. }
  split; [reflexivity|].
  split; [unfold getOrderedFieldNames; rewrite orderedKeys_sort; apply sortStrings_Sorted|].
  split; [apply orderedKeys_lookup_Permutation|].
  split; [intros f Hf; now rewrite Hf | reflexivity].
Qed.

(** ** Shape of the unmarshal routine *)

Lemma emitUnmarshalCode_text (s : Struct) :
  textOf (emitUnmarshalCode s) =
  unmarshalHeader s +:+
  cat (map (fun f => textOf (emitReceivedInit f)) (orderedFields (Fields s))) +:+
  unmarshalParse +:+ unmarshalLoopOpen +:+
  cat (map (fun f => textOf (emitUnmarshalCase f)) (orderedFields (Fields s))) +:+
  textOf (emitUnmarshalDefault s) +:+
  unmarshalLoopClose +:+
  cat (map (fun f => textOf (emitReceivedCheck f)) (orderedFields (Fields s))) +:+
  unmarshalFooter.
Proof.
  unfold emitUnmarshalCode, orderedFields.
  repeat (rewrite textOf_seq by auto 20 with emitters).
  rewrite !textOf_forEach by auto with emitters.
  rewrite !textOf_emit, textOf_need, !map_map. reflexivity.
Qed.

(** Only required fields contribute to the first and to the third loop. *)
Lemma receivedInit_filter (l : list Field) :
  cat (map (fun f => textOf (emitReceivedInit f)) l)
  = cat (map receivedInit (filter (fun f => Required f = true) l)).
Proof.
  induction l as [|f l IH]; [reflexivity|].
  cbn [map]. rewrite cat_cons, IH. unfold emitReceivedInit.
  destruct (Required f) eqn:Hr.
  - rewrite filter_cons_True by exact Hr. reflexivity.
  - rewrite filter_cons_False by (rewrite Hr; discriminate). reflexivity.
Qed.

Lemma receivedCheck_filter (l : list Field) :
  cat (map (fun f => textOf (emitReceivedCheck f)) l)
  = cat (map receivedCheck (filter (fun f => Required f = true) l)).
Proof.
  induction l as [|f l IH]; [reflexivity|].
  cbn [map]. rewrite cat_cons, IH. unfold emitReceivedCheck.
  destruct (Required f) eqn:Hr.
  - rewrite filter_cons_True by exact Hr. reflexivity.
  - rewrite filter_cons_False by (rewrite Hr; discriminate). reflexivity.
Qed.

(** Excluded fields contribute nothing to the second loop. *)
Lemma unmarshalCase_filter (l : list Field) :
  cat (map (fun f => textOf (emitUnmarshalCase f)) l)
  = cat (map (fun f => textOf (emitUnmarshalCase f))
             (filter (fun f => UnmarshalName f <> "-") l)).
Proof.
  induction l as [|f l IH]; [reflexivity|].
  cbn [map]. rewrite cat_cons, IH.
  destruct (decide (UnmarshalName f = "-")) as [He | Hne].
  - rewrite filter_cons_False by (intros H; now apply H).
    unfold emitUnmarshalCase. rewrite He. reflexivity.
  - rewrite filter_cons_True by exact Hne. reflexivity.
Qed.

(** ** Registered facilities are kept *)

Lemma Keeps_emit (t : string) : Keeps (emit t).
Proof. intros c k Hk. exact Hk. Qed.

Lemma Keeps_need (k' : string) : Keeps (need k').
Proof.
  intros c k Hk. cbn. destruct (decide (k' = k)) as [-> | Hne].
  - apply lookup_insert_eq.
  - now rewrite lookup_insert_ne.
Qed.

Lemma Keeps_skip : Keeps skip.
Proof. intros c k Hk. exact Hk. Qed.

Lemma Keeps_seq (a b : Emitter) : Keeps a -> Keeps b -> Keeps (a >> b).
Proof. intros Ha Hb c k Hk. apply Hb, Ha, Hk. Qed.

Lemma Keeps_if (b : bool) (x y : Emitter) : Keeps x -> Keeps y -> Keeps (if b then x else y).
Proof. now destruct b. Qed.

Lemma Keeps_forEach {A} (l : list A) (body : A -> Emitter) :
  (forall x, Keeps (body x)) -> Keeps (forEach l body).
Proof.
  intros Hb c k. revert c. induction l as [|x l IH]; intros c Hk; [exact Hk|].
  rewrite forEach_cons. apply IH, Hb, Hk.
Qed.

Lemma Keeps_onWriter (f : Writer -> Writer) : Keeps (onWriter f).
Proof. intros c k Hk. exact Hk. Qed.

#[export] Hint Resolve Keeps_emit Keeps_need Keeps_skip Keeps_seq Keeps_if
  Keeps_forEach Keeps_onWriter : emitters.

Lemma Keeps_emitMarshalField (f : Field) : Keeps (emitMarshalField f).
Proof.
  unfold emitMarshalField. destruct (getZeroValueCheck (MarshalType f)) as [z [|]];
    auto 10 with emitters.
Qed.

Lemma Keeps_emitMarshalAdditional (s : Struct) : Keeps (emitMarshalAdditional s).
Proof. unfold emitMarshalAdditional. auto 10 with emitters. Qed.

(** A facility registered by one round of a loop is registered after
    the loop. *)
Lemma forEach_registers {A} (l : list A) (body : A -> Emitter) (x : A) (k : string) :
  x ∈ l -> (forall y, Keeps (body y)) ->
  (forall c, imports (body x c) !! k = Some true) ->
  forall c, imports (forEach l body c) !! k = Some true.
Proof.
  intros Hin Hkeep Hx. induction l as [|y l IH]; intros c.
  - now apply elem_of_nil in Hin.
  - rewrite forEach_cons. apply elem_of_cons in Hin as [<- | Hin].
    + apply Keeps_forEach; [exact Hkeep | apply Hx].
    + now apply IH.
Qed.

Lemma seq_registers_l (a b : Emitter) (k : string) (c : Ctx) :
  imports (a c) !! k = Some true -> Keeps b -> imports ((a >> b) c) !! k = Some true.
Proof. intros Ha Hb. apply Hb, Ha. Qed.

Lemma seq_registers_r (a b : Emitter) (k : string) (c : Ctx) :
  (forall c', imports (b c') !! k = Some true) -> imports ((a >> b) c) !! k = Some true.
Proof. intros Hb. apply Hb. Qed.

(** ** Shape of the marshal routine *)

Lemma orderedFields_empty (m : gmap string Field) : size m = 0 -> orderedFields m = [].
Proof.
  intros H. apply map_size_empty_inv in H as ->.
  unfold orderedFields, getOrderedFieldNames. now rewrite map_to_list_empty.
Qed.

Lemma emitMarshalCode_text (s : Struct) :
  textOf (emitMarshalCode s) =
  marshalHeader s +:+
  cat (map (fun f => textOf (emitMarshalField f)) (orderedFields (Fields s))) +:+
  textOf (emitMarshalAdditional s) +:+
  marshalFooter.
Proof.
  unfold emitMarshalCode.
  repeat (rewrite textOf_seq by auto 20 with emitters).
  rewrite !textOf_emit, textOf_need. do 2 f_equal.
  case_bool_decide as Hs.
  - rewrite textOf_forEach by auto with emitters.
    unfold orderedFields. now rewrite map_map.
  - rewrite orderedFields_empty by lia. reflexivity.
Qed.

(** What [Required] adds to the text of a serialized field. *)
Lemma emitMarshalField_required (f : Field) :
  MarshalName f <> "-" -> Required f = true ->
  textOf (emitMarshalField f) =
  requiredRemark f +:+
  (if HasPrefix (MarshalType f) "*" then requiredGuard f else requiredUnchecked) +:+
  textOf (emitMarshalField (withRequired false f)).
Proof.
  intros Hn Hr. unfold emitMarshalField. cbn [withRequired MarshalName Required
    OmitEmpty MarshalType Name].
  apply String.eqb_neq in Hn. rewrite Hn, Hr.
  destruct (getZeroValueCheck (MarshalType f)) as [z hz].
  repeat (rewrite textOf_seq by (destruct hz; auto 20 with emitters)).
  rewrite textOf_skip, append_nil_l.
  destruct (HasPrefix (MarshalType f) "*").
  - rewrite textOf_seq by auto with emitters.
    rewrite !textOf_emit, textOf_need, append_nil_l, !append_assoc. reflexivity.
  - rewrite !textOf_emit, !append_assoc. reflexivity.
Qed.

(** ** Required fields on the marshal side *)

(** C4, as stated, fails on an excluded field: [recHidden] has a required
    field of pointer type whose [MarshalName] is ["-"]; the emitted
    routine has no nil test and no [errors.New] for it, and [errors] is
    not registered. *)
Lemma emitMarshalCode_excluded_required_no_guard :
  Fields recHidden !! "Owner" = Some fldHidden
  /\ Required fldHidden = true
  /\ HasPrefix (MarshalType fldHidden) "*" = true
  /\ occurs "if strct.Owner == nil {" (textOf (emitMarshalCode recHidden)) = false
  /\ occurs "== nil" (textOf (emitMarshalCode recHidden)) = false
  /\ occurs "errors.New" (textOf (emitMarshalCode recHidden)) = false
  /\ imports (emitMarshalCode recHidden (mkCtx "" ∅)) !! "errors" = None.
Proof. vm_compute. repeat split. Qed.

Lemma cat_map_elem_of {A} (g : A -> string) (l : list A) (x : A) :
  x ∈ l -> exists pre post, cat (map g l) = pre +:+ g x +:+ post.
Proof.
  intros Hx. apply list_elem_of_split in Hx as [l1 [l2 ->]].
  exists (cat (map g l1)), (cat (map g l2)).
  rewrite map_app, cat_app. cbn [map]. now rewrite cat_cons.
Qed.

(** C4 (amended): for every required field that is not excluded from
    serialization, the text the marshal emitter writes for the field is
    part of the record's marshal routine and is: the remark
    [// "<Name>" field is required]; then, if the marshal type starts
    with ["*"], the guard [if strct.<Name> == nil] returning
    [errors.New("<MarshalName> is a required field")] (and [errors] is
    registered), otherwise only the remark that required fields of
    other types are not checked; and then exactly what is written for
    the same field when it is not required. *)
Theorem emitMarshalCode_required (s : Struct) (k : string) (f : Field) :
  Fields s !! k = Some f -> MarshalName f <> "-" -> Required f = true ->
  (exists pre post,
     textOf (emitMarshalCode s) = pre +:+ textOf (emitMarshalField f) +:+ post)
  /\ (HasPrefix (MarshalType f) "*" = true ->
        textOf (emitMarshalField f) =
          "    // " +:+ dq +:+ Name f +:+ dq +:+ " field is required" +:+ nl +:+
          "    if strct." +:+ Name f +:+ " == nil {" +:+ nl +:+
          "        return nil, errors.New(" +:+ dq +:+ MarshalName f +:+
            " is a required field" +:+ dq +:+ ")" +:+ nl +:+
          "    }" +:+ nl +:+
          textOf (emitMarshalField (withRequired false f))
        /\ forall c, imports (emitMarshalCode s c) !! "errors" = Some true)
  /\ (HasPrefix (MarshalType f) "*" = false ->
        textOf (emitMarshalField f) =
          "    // " +:+ dq +:+ Name f +:+ dq +:+ " field is required" +:+ nl +:+
          "    // only required object types supported for marshal checking (for now)" +:+ nl +:+
          textOf (emitMarshalField (withRequired false f))).
Proof.
  intros Hk Hn Hr. split.
  { rewrite emitMarshalCode_text.
    destruct (cat_map_elem_of (fun f => textOf (emitMarshalField f))
                (orderedFields (Fields s)) f) as [pre [post ->]];
      [eapply orderedFields_elem_of, Hk|].
    exists (marshalHeader s +:+ pre),
           (post +:+ textOf (emitMarshalAdditional s) +:+ marshalFooter).
    now rewrite !append_assoc. }
  split.
  - intros Hp. split.
    + rewrite emitMarshalField_required by assumption. rewrite Hp.
      unfold requiredRemark, requiredGuard. now rewrite !append_assoc.
    + intros c. unfold emitMarshalCode.
      assert (Hs : 0 < size (Fields s)).
      { apply Nat.neq_0_lt_0. intros H0. apply map_size_empty_inv in H0.
        rewrite H0 in Hk. now rewrite lookup_empty in Hk. }
      rewrite bool_decide_true by exact Hs.
      pose proof Keeps_emitMarshalAdditional.
      apply seq_registers_r. intros c1.
      apply seq_registers_l; [|auto 10 with emitters].
      apply (forEach_registers _ _ k).
      * apply orderedKeys_elem_of. now exists f.
      * intros y. apply Keeps_emitMarshalField.
      * intros c2. rewrite (lookup_total_correct _ _ _ Hk).
        unfold emitMarshalField. apply String.eqb_neq in Hn. rewrite Hn, Hr, Hp.
        destruct (getZeroValueCheck (MarshalType f)) as [z hz].
        apply seq_registers_l; [|destruct hz; auto 20 with emitters].
        cbn. apply lookup_insert_eq.
  - intros Hp. rewrite emitMarshalField_required by assumption. rewrite Hp.
    unfold requiredRemark, requiredUnchecked. now rewrite !append_assoc.
Qed.

Lemma emitMarshalCode_required_witness :
  textOf (emitMarshalField fldOwner) =
    "    // " +:+ dq +:+ "Owner" +:+ dq +:+ " field is required" +:+ nl +:+
    "    if strct.Owner == nil {" +:+ nl +:+
    "        return nil, errors.New(" +:+ dq +:+ "owner is a required field" +:+ dq +:+ ")" +:+ nl +:+
    "    }" +:+ nl +:+
    textOf (emitMarshalField (withRequired false fldOwner)).
Proof.
  apply (emitMarshalCode_required recAccount "Owner" fldOwner);
    [reflexivity | discriminate | reflexivity | reflexivity].
Defined.

(** ** Required fields on the unmarshal side *)

Lemma emitUnmarshalFieldCode_label (f : Field) :
  hasCase f = true ->
  exists body, textOf (emitUnmarshalFieldCode f) = caseLabel f +:+ body.
Proof.
  unfold hasCase, emitUnmarshalFieldCode. intros H.
  destruct (String.eqb (MarshalType f) (UnmarshalType f)).
  { eexists. rewrite textOf_emit. unfold caseDirect, caseLabel.
    rewrite !append_assoc. reflexivity. }
  destruct (String.eqb_spec (UnmarshalType f) "string") as [Hu | _].
  { destruct (String.eqb (MarshalType f) "int").
    - eexists. rewrite textOf_emit. unfold caseTextToInt, caseLabel.
      rewrite !append_assoc. reflexivity.
    - rewrite Hu in H. discriminate. }
  destruct (String.eqb (UnmarshalType f) "int"); [|discriminate].
  destruct (String.eqb (MarshalType f) "string"); [|discriminate].
  eexists. rewrite textOf_seq, textOf_need, textOf_emit by auto with emitters.
  unfold caseIntToText, caseLabel. rewrite !append_assoc. reflexivity.
Qed.

(** C5: [recVault] has one field, required and excluded from reading
    ([UnmarshalName] ["-"]).  The first and the third loop, which lack
    the test of ["-"] that the dispatch loop has, still initialise and
    check a flag for it, named [-Received], while the switch has no case
    and nothing sets the flag: the routine is the text below, which
    fails for every input (and is not Go). *)
Theorem emitUnmarshalCode_excluded_required_never_set :
  Fields recVault !! "Secret" = Some fldSecret
  /\ Required fldSecret = true
  /\ UnmarshalName fldSecret = "-"
  /\ textOf (emitUnmarshalCode recVault) =
       nl +:+ "func (strct *Vault) UnmarshalJSON(b []byte) error {" +:+ nl +:+
       "    -Received := false" +:+ nl +:+
       "    var jsonMap map[string]json.RawMessage" +:+ nl +:+
       "    if err := json.Unmarshal(b, &jsonMap); err != nil {" +:+ nl +:+
       "        return err" +:+ nl +:+
       "    }" +:+ nl +:+
       "    // parse all the defined properties" +:+ nl +:+
       "    for k, v := range jsonMap {" +:+ nl +:+
       "        if v != nil {" +:+ nl +:+
       tab +:+ tab +:+ tab +:+ "switch k {" +:+ nl +:+
       "        }}" +:+ nl +:+
       "    }" +:+ nl +:+
       "    // check if - (a required property) was received" +:+ nl +:+
       "    if !-Received {" +:+ nl +:+
       "        return errors.New(" +:+ dq +:+ "\" +:+ dq +:+ "-\" +:+ dq +:+
         " is required but was not present" +:+ dq +:+ ")" +:+ nl +:+
       "    }" +:+ nl +:+
       "    return nil" +:+ nl +:+
       "}" +:+ nl
  /\ occurs "Received = true" (textOf (emitUnmarshalCode recVault)) = false
  /\ occurs "case " (textOf (emitUnmarshalCode recVault)) = false.
Proof. vm_compute. repeat split. Qed.

(** ** Fields without a dispatch case *)

Lemma StronglySorted_filter {A} (R : relation A) (P : A -> Prop)
    `{!forall x, Decision (P x)} (l : list A) :
  StronglySorted R l -> StronglySorted R (filter P l).
Proof.
  induction 1 as [|a l Hs IH Ha]; [constructor|].
  rewrite filter_cons. destruct (decide (P a)); [|exact IH].
  constructor; [exact IH|].
  apply Forall_forall. intros x Hx. apply list_elem_of_filter in Hx as [_ Hx].
  rewrite Forall_forall in Ha. now apply Ha.
Qed.

Lemma filter_all {A} (P : A -> Prop) `{!forall x, Decision (P x)} (l : list A) :
  (forall x, x ∈ l -> P x) -> filter P l = l.
Proof.
  induction l as [|a l IH]; intros Hall; [reflexivity|].
  rewrite filter_cons_True by (apply Hall; left).
  f_equal. apply IH. intros x Hx. apply Hall. now right.
Qed.

(** Removing a key from the map removes it from the sorted key list and
    leaves the rest in place. *)
Lemma orderedKeys_delete {V} (m : gmap string V) (k : string) (v : V) :
  m !! k = Some v ->
  orderedKeys (map_to_list (delete k m)).*1
  = filter (fun k' => k' <> k) (orderedKeys (map_to_list m).*1).
Proof.
  intros Hk. rewrite !orderedKeys_sort. apply sortStrings_unique.
  - apply StronglySorted_filter, sortStrings_StronglySorted.
  - rewrite sortStrings_Permutation.
    rewrite <- (map_to_list_delete m k v Hk). cbn [fmap list_fmap fst].
    rewrite filter_cons_False by (intros H; now apply H).
    apply eq_subrelation; [apply _|]. apply filter_all.
    intros x Hx Hxk. subst x.
    apply list_elem_of_fmap in Hx as [[k' v'] [Hk' Hin]]. cbn in Hk'. subst k'.
    apply elem_of_map_to_list in Hin. now rewrite lookup_delete_eq in Hin.
Qed.

(** A loop round that does nothing can be left out. *)
Lemma forEach_skip_key (l : list string) (body body' : string -> Emitter) (k : string) :
  (forall c, body k c = c) ->
  (forall k' c, k' <> k -> body' k' c = body k' c) ->
  forall c, forEach (filter (fun k' => k' <> k) l) body' c = forEach l body c.
Proof.
  intros Hk Hne. induction l as [|x l IH]; intros c; [reflexivity|].
  rewrite filter_cons. destruct (decide (x <> k)) as [Hx | Hx].
  - rewrite !forEach_cons, Hne by exact Hx. apply IH.
  - apply dec_stable in Hx. subst x. rewrite forEach_cons, Hk. apply IH.
Qed.

Lemma emitUnmarshalFieldCode_no_case (f : Field) (c : Ctx) :
  MarshalType f <> UnmarshalType f ->
  ~ (UnmarshalType f = "string" /\ MarshalType f = "int") ->
  ~ (UnmarshalType f = "int" /\ MarshalType f = "string") ->
  emitUnmarshalFieldCode f c = c.
Proof.
  intros Hd H1 H2. unfold emitUnmarshalFieldCode.
  apply String.eqb_neq in Hd. rewrite Hd.
  destruct (String.eqb_spec (UnmarshalType f) "string") as [Hu | _].
  { destruct (String.eqb_spec (MarshalType f) "int") as [Hm | _]; [|reflexivity].
    exfalso. now apply H1. }
  destruct (String.eqb_spec (UnmarshalType f) "int") as [Hu | _]; [|reflexivity].
  destruct (String.eqb_spec (MarshalType f) "string") as [Hm | _]; [|reflexivity].
  exfalso. now apply H2.
Qed.

(** C6, as stated, fails on a required field: [recMixed] has the
    required field [fldZip] of types [bool]/[string]; the routine has no
    dispatch case for it, yet it initialises, sets and checks the
    field's flag, and is not the routine of the record without the
    field. *)
Lemma emitUnmarshalCode_unsupported_required_has_code :
  Fields recMixed !! "Zip" = Some fldZip
  /\ MarshalType fldZip <> UnmarshalType fldZip
  /\ hasCase fldZip = false
  /\ occurs (caseLabel fldZip) (textOf (emitUnmarshalCode recMixed)) = false
  /\ occurs (receivedInit fldZip) (textOf (emitUnmarshalCode recMixed)) = true
  /\ occurs (receivedSet fldZip) (textOf (emitUnmarshalCode recMixed)) = true
  /\ occurs (receivedCheck fldZip) (textOf (emitUnmarshalCode recMixed)) = true
  /\ textOf (emitUnmarshalCode recMixed)
     <> textOf (emitUnmarshalCode (withFields (delete "Zip" (Fields recMixed)) recMixed)).
Proof. vm_compute. repeat split; discriminate. Qed.

(** C6 (amended): for a field whose marshal and unmarshal types differ
    and are not one of the two supported pairs, [emitUnmarshalFieldCode]
    writes nothing and registers nothing, so the field gets no dispatch
    case; if the field is moreover not required, the unmarshal routine
    of its record is the routine of the record without the field. *)
Theorem emitUnmarshalFieldCode_unsupported (f : Field) :
  MarshalType f <> UnmarshalType f ->
  ~ (UnmarshalType f = "string" /\ MarshalType f = "int") ->
  ~ (UnmarshalType f = "int" /\ MarshalType f = "string") ->
  (forall c, emitUnmarshalFieldCode f c = c)
  /\ (Required f = false ->
      forall s k c, Fields s !! k = Some f ->
        emitUnmarshalCode (withFields (delete k (Fields s)) s) c = emitUnmarshalCode s c).
Proof.
  intros Hd H1 H2.
  assert (Hno : forall c, emitUnmarshalFieldCode f c = c)
    by (intros c; now apply emitUnmarshalFieldCode_no_case).
  split; [exact Hno|]. intros Hr s k c Hk.
  unfold emitUnmarshalCode, seq.
  cbn [withFields Fields AdditionalType sName].
  unfold getOrderedFieldNames. rewrite (orderedKeys_delete _ _ _ Hk).
  assert (Hdel : forall (E : Field -> Emitter) k' c',
            k' <> k -> E (delete k (Fields s) !!! k') c' = E (Fields s !!! k') c').
  { intros E k' c' Hne. now rewrite lookup_total_delete_ne. }
  rewrite (forEach_skip_key _ (fun key => emitReceivedInit (Fields s !!! key))
             (fun key => emitReceivedInit (delete k (Fields s) !!! key)) k).
  2:{ intros c'. rewrite (lookup_total_correct _ _ _ Hk).
      unfold emitReceivedInit. now rewrite Hr. }
  2:{ intros k' c'. apply (Hdel emitReceivedInit). }
  rewrite (forEach_skip_key _ (fun key => emitUnmarshalCase (Fields s !!! key))
             (fun key => emitUnmarshalCase (delete k (Fields s) !!! key)) k).
  2:{ intros c'. rewrite (lookup_total_correct _ _ _ Hk).
      unfold emitUnmarshalCase, seq. rewrite Hr.
      destruct (String.eqb (UnmarshalName f) "-"); [reflexivity | apply Hno]. }
  2:{ intros k' c'. apply (Hdel emitUnmarshalCase). }
  rewrite (forEach_skip_key _ (fun key => emitReceivedCheck (Fields s !!! key))
             (fun key => emitReceivedCheck (delete k (Fields s) !!! key)) k).
  2:{ intros c'. rewrite (lookup_total_correct _ _ _ Hk).
      unfold emitReceivedCheck. now rewrite Hr. }
  2:{ intros k' c'. apply (Hdel emitReceivedCheck). }
  reflexivity.
Qed.

Lemma emitUnmarshalFieldCode_unsupported_witness :
  emitUnmarshalCode (withFields (delete "Note" (Fields recNoted)) recNoted) (mkCtx "" ∅)
  = emitUnmarshalCode recNoted (mkCtx "" ∅).
Proof.
  apply (emitUnmarshalFieldCode_unsupported fldNote);
    [discriminate | intros [_ H]; discriminate | intros [H _]; discriminate
    | reflexivity | reflexivity].
Defined.

(** ** The output stream *)

Lemma AppendOnlyW_outputNameAndDescriptionComment (name description : string) :
  AppendOnlyW (outputNameAndDescriptionComment name description).
Proof.
  intros w. unfold outputNameAndDescriptionComment.
  destruct (Index description nl); reflexivity.
Qed.

Lemma AppendOnlyW_outputFieldDescriptionComment (description : string) :
  AppendOnlyW (outputFieldDescriptionComment description).
Proof.
  intros w. unfold outputFieldDescriptionComment.
  destruct (Index description nl); reflexivity.
Qed.

Lemma outputAlias_text (a : Field) (w : Writer) :
  outputAlias a w =
  w +:+ nl +:+ "// " +:+ Name a +:+ nl +:+
  "type " +:+ Name a +:+ " " +:+ UnmarshalType a +:+ nl.
Proof. unfold outputAlias, Fprintf. cbv zeta. now rewrite !append_assoc. Qed.

Lemma outputFieldDecl_text (f : Field) (w : Writer) :
  outputFieldDecl f w =
  w +:+
  (if negb (String.eqb (Description f) "")
   then outputFieldDescriptionComment (Description f) "" else "") +:+
  "  " +:+ Name f +:+ " " +:+ MarshalType f +:+ nl.
Proof.
  unfold outputFieldDecl, Fprintf. cbv zeta.
  destruct (negb (String.eqb (Description f) "")).
  - rewrite AppendOnlyW_outputFieldDescriptionComment. now rewrite !append_assoc.
  - reflexivity.
Qed.

Lemma AppendOnlyW_outputFieldDecl (f : Field) : AppendOnlyW (outputFieldDecl f).
Proof. intros w. rewrite !outputFieldDecl_text. reflexivity. Qed.

Lemma outputStructDecl_text (s : Struct) (w : Writer) :
  outputStructDecl s w =
  w +:+ nl +:+
  outputNameAndDescriptionComment (sName s) (sDescription s) "" +:+
  "type " +:+ sName s +:+ " struct {" +:+ nl +:+
  cat (map (fun f => outputFieldDecl f "") (orderedFields (Fields s))) +:+
  "}" +:+ nl.
Proof.
  unfold outputStructDecl. cbv zeta.
  rewrite forEachW_text by (intros x; apply AppendOnlyW_outputFieldDecl).
  unfold Fprintf at 1 2 3. rewrite AppendOnlyW_outputNameAndDescriptionComment.
  unfold orderedFields. rewrite map_map. now rewrite !append_assoc.
Qed.

Lemma AppendOnlyW_outputAlias (a : Field) : AppendOnlyW (outputAlias a).
Proof. intros w. rewrite !outputAlias_text. reflexivity. Qed.

Lemma AppendOnlyW_outputStructDecl (s : Struct) : AppendOnlyW (outputStructDecl s).
Proof. intros w. rewrite !outputStructDecl_text. reflexivity. Qed.

Lemma emitStructCode_text (s : Struct) :
  textOf (emitStructCode s) = if GenerateCode s then routinesOf s else "".
Proof.
  unfold emitStructCode, routinesOf. destruct (GenerateCode s); [|reflexivity].
  now rewrite !textOf_seq, textOf_onWriter by auto with emitters.
Qed.

(** Only code-generating records contribute to the buffer. *)
Lemma routines_filter (l : list Struct) :
  cat (map (fun s => textOf (emitStructCode s)) l)
  = cat (map routinesOf (filter (fun s => GenerateCode s = true) l)).
Proof.
  induction l as [|s l IH]; [reflexivity|].
  cbn [map]. rewrite cat_cons, IH, emitStructCode_text.
  destruct (GenerateCode s) eqn:Hg.
  - rewrite filter_cons_True by exact Hg. reflexivity.
  - rewrite filter_cons_False by (rewrite Hg; discriminate). reflexivity.
Qed.

Lemma generateCode_out (structs : gmap string Struct) :
  out (generateCode structs)
  = cat (map routinesOf (filter (fun s => GenerateCode s = true) (orderedStructs structs))).
Proof.
  unfold generateCode. rewrite out_forEach by auto with emitters.
  cbn [out]. rewrite append_nil_l, <- routines_filter.
  unfold orderedStructs. now rewrite map_map.
Qed.

Lemma outputImports_text (imps : gmap string bool) (visit : list string) (w : Writer) :
  outputImports imps visit w =
  w +:+ (if bool_decide (0 < size imps) then importBlock visit else "").
Proof.
  unfold outputImports, importBlock. case_bool_decide.
  - rewrite forEachW_text by auto with emitters. unfold Fprintf.
    now rewrite !append_assoc.
  - now rewrite append_nil_r.
Qed.

(** ** Where the code departs from its documentation *)

(** C1: for the one-record model [genPerson], two admissible visiting
    orders of [imports] give two different output texts: the facility
    block follows the order of [range], which nothing sorts. *)
Theorem Output_depends_on_range_order :
  exists r1 r2 : string,
    OutputRun genPerson "main" r1 /\ OutputRun genPerson "main" r2 /\ r1 <> r2.
Proof.
  exists (Output (map_to_list (imports (generateCode (Structs genPerson)))).*1
                 "" genPerson "main").
  exists (Output (reverse (map_to_list (imports (generateCode (Structs genPerson)))).*1)
                 "" genPerson "main").
  split; [|split].
  - eexists. split; [|reflexivity]. unfold rangeOrder. reflexivity.
  - eexists. split; [|reflexivity]. unfold rangeOrder. apply reverse_Permutation.
  - vm_compute. discriminate.
Qed.

(** C2: for the omit-empty field [fldHome], whose type has no zero
    literal, the serialization is wrapped in
    [if reflect.ValueOf(strct.Home).IsZero() {], without negation: the
    field is written when it is zero and left out when it is not. *)
Theorem emitMarshalField_reflect_guard :
  OmitEmpty fldHome = true
  /\ getZeroValueCheck (MarshalType fldHome) = ("", false)
  /\ textOf (emitMarshalField fldHome) =
       omitReflectOpen fldHome +:+ marshalOpen fldHome +:+
       marshalAppend fldHome +:+ omitClose
  /\ omitReflectOpen fldHome =
       tab +:+ "// Check using reflect.Value" +:+ nl +:+
       tab +:+ "if reflect.ValueOf(strct.Home).IsZero() {" +:+ nl
  /\ occurs "!reflect.ValueOf" (textOf (emitMarshalCode recResident)) = false
  /\ occurs "if reflect.ValueOf(strct.Home).IsZero() {"
            (textOf (emitMarshalCode recResident)) = true.
Proof. vm_compute. repeat split. Qed.

(** C3: the routines emitted for [genResident] call [reflect.ValueOf]
    and [strconv.ParseInt], and neither [reflect] nor [strconv] is in
    the collected facility set. *)
Theorem generateCode_unregistered_facilities :
  occurs "reflect.ValueOf(" (out (generateCode (Structs genResident))) = true
  /\ imports (generateCode (Structs genResident)) !! "reflect" = None
  /\ occurs "strconv.ParseInt(" (out (generateCode (Structs genResident))) = true
  /\ imports (generateCode (Structs genResident)) !! "strconv" = None
  /\ sortStrings (map_to_list (imports (generateCode (Structs genResident)))).*1
       = ["encoding/json"; "fmt"; "strings"].
Proof. vm_compute. repeat split. Qed.

(** * Further properties *)

(** ** Ordering helpers *)

(** X1: whatever order [range] visits a map in, the ordering helpers
    fill every slot of the slice in that order and return the same
    list: sorted, without repetition, as long as the map, and holding
    exactly its keys. *)
Theorem orderedKeys_any_range {V} (m : gmap string V) (visit : list string) :
  rangeOrder m visit ->
  fillKeys visit = visit
  /\ orderedKeys visit = orderedKeys (map_to_list m).*1
  /\ StronglySorted String.le (orderedKeys visit)
  /\ NoDup (orderedKeys visit)
  /\ length (orderedKeys visit) = size m
  /\ (forall k, k ∈ orderedKeys visit <-> is_Some (m !! k)).
Proof.
  intros Hv.
  assert (He : orderedKeys visit = orderedKeys (map_to_list m).*1)
    by now apply orderedKeys_range_indep.
  split; [apply fillKeys_id|]. split; [exact He|]. rewrite He.
  split; [rewrite orderedKeys_sort; apply sortStrings_StronglySorted|].
  split; [apply orderedKeys_NoDup|].
  split; [|apply orderedKeys_elem_of].
  rewrite orderedKeys_Permutation, length_fmap. apply length_map_to_list.
Qed.

Lemma orderedKeys_any_range_witness :
  orderedKeys ["Title"; "Owner"] = getOrderedFieldNames (Fields recAccount)
  /\ orderedKeys ["Owner"; "Title"] = getOrderedFieldNames (Fields recAccount).
Proof.
  split.
  - apply (orderedKeys_any_range (Fields recAccount) ["Title"; "Owner"]).
    unfold rangeOrder. vm_compute.
    first [reflexivity | apply perm_swap].
  - apply (orderedKeys_any_range (Fields recAccount) ["Owner"; "Title"]).
    unfold rangeOrder. vm_compute.
    first [reflexivity | apply perm_swap].
Defined.

(** ** Package name *)

Lemma hasByte_dropByte_same (c : ascii) (s : string) : hasByte c (dropByte c s) = false.
Proof.
  induction s as [|d r IH]; [reflexivity|]. cbn.
  destruct (Ascii.eqb d c) eqn:E; [exact IH|]. cbn. now rewrite E.
Qed.

Lemma hasByte_dropByte_other (c d : ascii) (s : string) :
  c <> d -> hasByte c (dropByte d s) = hasByte c s.
Proof.
  intros Hne. induction s as [|e r IH]; [reflexivity|]. cbn.
  destruct (Ascii.eqb_spec e d) as [-> | Hed]; cbn.
  - rewrite IH. destruct (Ascii.eqb_spec d c) as [-> | _]; [now destruct Hne | reflexivity].
  - now rewrite IH.
Qed.

Lemma dropByte_absent (c : ascii) (s : string) : hasByte c s = false -> dropByte c s = s.
Proof.
  induction s as [|d r IH]; [reflexivity|]. cbn. intros H.
  apply orb_false_iff in H as [-> Hr]. now rewrite IH.
Qed.

Lemma dropByte_append (c : ascii) (a b : string) :
  dropByte c (a +:+ b) = dropByte c a +:+ dropByte c b.
Proof.
  induction a as [|d r IH]; [reflexivity|].
  change (String d r +:+ b) with (String d (r +:+ b)). cbn.
  destruct (Ascii.eqb d c); [exact IH|].
  change (String d (dropByte c r) +:+ dropByte c b)
    with (String d (dropByte c r +:+ dropByte c b)).
  now rewrite IH.
Qed.

(** X2: the cleaned package name holds neither ["."] nor ["-"]; every
    other byte occurs in it exactly when it occurs in the name; cleaning
    is idempotent, leaves a name without the two bytes as it is, and
    distributes over concatenation. *)
Theorem cleanPackageName_bytes (pkg : string) :
  hasByte "." (cleanPackageName pkg) = false
  /\ hasByte "-" (cleanPackageName pkg) = false
  /\ (forall c : ascii, c <> "."%char -> c <> "-"%char ->
        hasByte c (cleanPackageName pkg) = hasByte c pkg)
  /\ cleanPackageName (cleanPackageName pkg) = cleanPackageName pkg
  /\ (hasByte "." pkg = false -> hasByte "-" pkg = false -> cleanPackageName pkg = pkg)
  /\ (forall rest, cleanPackageName (pkg +:+ rest)
                   = cleanPackageName pkg +:+ cleanPackageName rest).
Proof.
  unfold cleanPackageName.
  assert (Hdot : hasByte "." (dropByte "-" (dropByte "." pkg)) = false).
  { rewrite hasByte_dropByte_other by discriminate. apply hasByte_dropByte_same. }
  assert (Hdash : hasByte "-" (dropByte "-" (dropByte "." pkg)) = false)
    by apply hasByte_dropByte_same.
  split; [exact Hdot|]. split; [exact Hdash|]. split; [|split; [|split]].
  - intros c H1 H2. now rewrite !hasByte_dropByte_other.
  - rewrite (dropByte_absent "." _ Hdot). now rewrite (dropByte_absent "-" _ Hdash).
  - intros H1 H2. rewrite (dropByte_absent "." _ H1). now apply dropByte_absent.
  - intros rest. now rewrite !dropByte_append.
Qed.

(** ** Comments *)

Lemma append_String (c : ascii) (a b : string) : String c a +:+ b = String c (a +:+ b).
Proof. reflexivity. Qed.

Lemma hasByte_append (c : ascii) (a b : string) :
  hasByte c (a +:+ b) = hasByte c a || hasByte c b.
Proof.
  induction a as [|d r IH]; [reflexivity|].
  rewrite append_String. cbn. rewrite IH. now rewrite orb_assoc.
Qed.

Lemma prefix_append (p x : string) : String.prefix p (p +:+ x) = true.
Proof.
  induction p as [|c p IH]; [now destruct x|].
  rewrite append_String. cbn. now destruct (ascii_dec c c).
Qed.

Lemma SplitLines_cons (s : string) : exists h t, SplitLines s = h :: t.
Proof.
  induction s as [|c r [h [t IH]]]; [now exists EmptyString, []|].
  cbn. destruct (Ascii.eqb c (ascii_of_nat 10)); [eauto|].
  rewrite IH. eauto.
Qed.

Lemma Join_String (c : ascii) (h : string) (t : list string) (sep : string) :
  Join (String c h :: t) sep = String c (Join (h :: t) sep).
Proof. unfold Join. destruct t; reflexivity. Qed.

Lemma Join_empty_first (h : string) (t : list string) (sep : string) :
  Join (EmptyString :: h :: t) sep = sep +:+ Join (h :: t) sep.
Proof. reflexivity. Qed.

(** A description without line feed is its own single piece. *)
Lemma SplitLines_single (d : string) : Index d nl = None -> SplitLines d = [d].
Proof.
  unfold Index. induction d as [|c r IH]; [reflexivity|].
  cbn [String.index SplitLines]. unfold nl at 1. cbn [String.prefix].
  destruct (ascii_dec "010" c) as [<- | Hne].
  - destruct r; discriminate.
  - destruct (Ascii.eqb_spec c (ascii_of_nat 10)) as [-> | _]; [now destruct Hne|].
    destruct (String.index 0 nl r); [discriminate|]. intros _.
    now rewrite IH.
Qed.

Lemma linesStartWith_skip (p a t : string) :
  hasByte "010" a = false -> linesStartWith p (a +:+ t) = linesStartWith p t.
Proof.
  induction a as [|c r IH]; [reflexivity|]. cbn [hasByte]. intros H.
  apply orb_false_iff in H as [Hc Hr].
  rewrite append_String. cbn [linesStartWith].
  change (ascii_of_nat 10) with "010"%char. rewrite Hc. cbn. now apply IH.
Qed.

(** Joining the pieces of a description with a line feed followed by
    [p] puts [p] after every line feed. *)
Lemma linesStartWith_Join (p d : string) :
  hasByte "010" p = false ->
  linesStartWith p (Join (SplitLines d) (nl +:+ p) +:+ nl) = true.
Proof.
  intros Hp. induction d as [|c r IH]; [reflexivity|].
  cbn [SplitLines]. destruct (SplitLines_cons r) as [h [t Hr]].
  rewrite Hr in *.
  destruct (Ascii.eqb_spec c (ascii_of_nat 10)) as [-> | Hc].
  - rewrite Join_empty_first, !append_assoc.
    unfold nl at 1. rewrite append_String, append_nil_l.
    cbn [linesStartWith]. rewrite prefix_append, orb_true_r.
    rewrite linesStartWith_skip by exact Hp. exact IH.
  - rewrite Join_String, append_String. cbn [linesStartWith].
    apply Ascii.eqb_neq in Hc. rewrite Hc. exact IH.
Qed.

(** X3: the doc comment of a record is ["// "], the name, a space and
    the description with every line feed followed by ["// "], whichever
    branch writes it and whatever the name is, so the text starts with
    ["// "]; when the name holds no line feed, every further line of
    the text starts with ["// "] too. *)
Theorem outputNameAndDescriptionComment_lines (name description : string) (w : Writer) :
  outputNameAndDescriptionComment name description w =
    w +:+ "// " +:+ name +:+ " " +:+
    Join (SplitLines description) (nl +:+ "// ") +:+ nl
  /\ HasPrefix (outputNameAndDescriptionComment name description "") "// " = true
  /\ (hasByte "010" name = false ->
      linesStartWith "// " (outputNameAndDescriptionComment name description "") = true).
Proof.
  assert (He : forall w', outputNameAndDescriptionComment name description w' =
            w' +:+ ("// " +:+ name +:+ " ") +:+
            Join (SplitLines description) (nl +:+ "// ") +:+ nl).
  { intros w'. unfold outputNameAndDescriptionComment, Fprintf.
    destruct (Index description nl) eqn:Hi.
    - now rewrite !append_assoc.
    - rewrite (SplitLines_single _ Hi). now rewrite !append_assoc. }
  split; [rewrite He; now rewrite !append_assoc|].
  rewrite He, append_nil_l.
  split; [unfold HasPrefix; rewrite !append_assoc; apply prefix_append|].
  intros Hn.
  apply eq_trans with (2 := linesStartWith_Join "// " description eq_refl).
  apply linesStartWith_skip.
  rewrite !hasByte_append, Hn. reflexivity.
Qed.

Lemma outputNameAndDescriptionComment_lines_witness :
  hasByte "010" "Person" = false
  /\ linesStartWith "// " (outputNameAndDescriptionComment "Person" twoLines "") = true.
Proof.
  split; [reflexivity|].
  apply (outputNameAndDescriptionComment_lines "Person" twoLines ""). reflexivity.
Defined.

(** X4: the doc comment of a field is an empty line, then ["  // "] and
    the description with every line feed followed by ["  // "],
    whichever branch writes it: every line of it after the empty one
    starts with ["  // "]. *)
Theorem outputFieldDescriptionComment_lines (description : string) (w : Writer) :
  outputFieldDescriptionComment description w =
    w +:+ nl +:+ "  // " +:+
    Join (SplitLines description) (nl +:+ "  // ") +:+ nl
  /\ linesStartWith "  // " (outputFieldDescriptionComment description "") = true.
Proof.
  assert (He : forall w', outputFieldDescriptionComment description w' =
            w' +:+ nl +:+ "  // " +:+
            Join (SplitLines description) (nl +:+ "  // ") +:+ nl).
  { intros w'. unfold outputFieldDescriptionComment, Fprintf.
    destruct (Index description nl) eqn:Hi.
    - reflexivity.
    - now rewrite (SplitLines_single _ Hi). }
  split; [apply He|].
  rewrite He, append_nil_l. unfold nl at 1. rewrite append_String, append_nil_l.
  cbn [linesStartWith]. rewrite prefix_append, orb_true_r.
  rewrite linesStartWith_skip by reflexivity.
  apply linesStartWith_Join. reflexivity.
Qed.

(** ** Excluded fields *)

Lemma getOrderedFieldNames_empty (m : gmap string Field) :
  size m = 0 -> getOrderedFieldNames m = [].
Proof.
  intros H. apply map_size_empty_inv in H as ->.
  unfold getOrderedFieldNames. now rewrite map_to_list_empty.
Qed.

(** With or without the test of [len(s.Fields)], the loop runs over the
    sorted keys. *)
Lemma guarded_forEach (m : gmap string Field) (body : string -> Emitter) (c : Ctx) :
  (if bool_decide (0 < size m) then forEach (getOrderedFieldNames m) body else skip) c
  = forEach (getOrderedFieldNames m) body c.
Proof.
  case_bool_decide as Hs; [reflexivity|].
  rewrite getOrderedFieldNames_empty by lia. reflexivity.
Qed.

(** A field for which the three loops of the unmarshal emitter do
    nothing can be removed from the record. *)
Lemma emitUnmarshalCode_inert_field (s : Struct) (k : string) (f : Field) :
  Fields s !! k = Some f ->
  (forall c, emitReceivedInit f c = c) ->
  (forall c, emitUnmarshalCase f c = c) ->
  (forall c, emitReceivedCheck f c = c) ->
  forall c, emitUnmarshalCode (withFields (delete k (Fields s)) s) c = emitUnmarshalCode s c.
Proof.
  intros Hk Hi Hc Hr c.
  unfold emitUnmarshalCode, seq.
  cbn [withFields Fields AdditionalType sName].
  unfold getOrderedFieldNames. rewrite (orderedKeys_delete _ _ _ Hk).
  assert (Hdel : forall (E : Field -> Emitter) k' c',
            k' <> k -> E (delete k (Fields s) !!! k') c' = E (Fields s !!! k') c').
  { intros E k' c' Hne. now rewrite lookup_total_delete_ne. }
  rewrite (forEach_skip_key _ (fun key => emitReceivedInit (Fields s !!! key))
             (fun key => emitReceivedInit (delete k (Fields s) !!! key)) k).
  2:{ intros c'. now rewrite (lookup_total_correct _ _ _ Hk). }
  2:{ intros k' c'. apply (Hdel emitReceivedInit). }
  rewrite (forEach_skip_key _ (fun key => emitUnmarshalCase (Fields s !!! key))
             (fun key => emitUnmarshalCase (delete k (Fields s) !!! key)) k).
  2:{ intros c'. now rewrite (lookup_total_correct _ _ _ Hk). }
  2:{ intros k' c'. apply (Hdel emitUnmarshalCase). }
  rewrite (forEach_skip_key _ (fun key => emitReceivedCheck (Fields s !!! key))
             (fun key => emitReceivedCheck (delete k (Fields s) !!! key)) k).
  2:{ intros c'. now rewrite (lookup_total_correct _ _ _ Hk). }
  2:{ intros k' c'. apply (Hdel emitReceivedCheck). }
  reflexivity.
Qed.

(** X5: a field whose [MarshalName] is ["-"] is skipped by the marshal
    emitter whatever its other members are: nothing is written or
    registered for it, and the marshal routine of its record, text and
    facilities, is the one of the record without the field. *)
Theorem emitMarshalCode_excluded_field (s : Struct) (k : string) (f : Field) :
  Fields s !! k = Some f -> MarshalName f = "-" ->
  (forall c, emitMarshalField f c = c)
  /\ (forall c, emitMarshalCode (withFields (delete k (Fields s)) s) c
                = emitMarshalCode s c).
Proof.
  intros Hk Hn.
  assert (Hf : forall c, emitMarshalField f c = c).
  { intros c. unfold emitMarshalField. now rewrite Hn. }
  split; [exact Hf|]. intros c.
  unfold emitMarshalCode, seq.
  cbn [withFields Fields AdditionalType sName].
  rewrite !guarded_forEach.
  unfold getOrderedFieldNames. rewrite (orderedKeys_delete _ _ _ Hk).
  rewrite (forEach_skip_key _ (fun key => emitMarshalField (Fields s !!! key))
             (fun key => emitMarshalField (delete k (Fields s) !!! key)) k).
  - reflexivity.
  - intros c'. now rewrite (lookup_total_correct _ _ _ Hk).
  - intros k' c' Hne. now rewrite lookup_total_delete_ne.
Qed.

Lemma emitMarshalCode_excluded_field_witness :
  emitMarshalCode (withFields (delete "Cache" (Fields recCached)) recCached) (mkCtx "" ∅)
  = emitMarshalCode recCached (mkCtx "" ∅).
Proof.
  apply (emitMarshalCode_excluded_field recCached "Cache" fldCache); reflexivity.
Defined.

(** X6: a field whose [UnmarshalName] is ["-"] and that is not required
    is skipped by the unmarshal emitter: it gets no dispatch case, and
    the unmarshal routine of its record, text and facilities, is the one
    of the record without the field. *)
Theorem emitUnmarshalCode_excluded_field (s : Struct) (k : string) (f : Field) :
  Fields s !! k = Some f -> UnmarshalName f = "-" -> Required f = false ->
  (forall c, emitUnmarshalCase f c = c)
  /\ (forall c, emitUnmarshalCode (withFields (delete k (Fields s)) s) c
                = emitUnmarshalCode s c).
Proof.
  intros Hk Hn Hr.
  assert (Hc : forall c, emitUnmarshalCase f c = c).
  { intros c. unfold emitUnmarshalCase. now rewrite Hn. }
  split; [exact Hc|].
  apply (emitUnmarshalCode_inert_field s k f Hk); [|exact Hc|].
  - intros c. unfold emitReceivedInit. now rewrite Hr.
  - intros c. unfold emitReceivedCheck. now rewrite Hr.
Qed.

Lemma emitUnmarshalCode_excluded_field_witness :
  emitUnmarshalCode (withFields (delete "Cache" (Fields recCached)) recCached) (mkCtx "" ∅)
  = emitUnmarshalCode recCached (mkCtx "" ∅).
Proof.
  apply (emitUnmarshalCode_excluded_field recCached "Cache" fldCache); reflexivity.
Defined.

(** X7: a record without fields: the test of [len(s.Fields)] in the
    marshal emitter changes nothing (the emitter does what it would do
    with the loop run unconditionally), and the three routines are
    their fixed parts only, the unmarshal routine keeping its dispatch
    loop around the default case alone. *)
Theorem emitMarshalCode_guard_redundant (s : Struct) (c : Ctx) :
  emitMarshalCode s c =
    (emit (marshalHeader s) >>
     forEach (getOrderedFieldNames (Fields s))
             (fun fieldKey => emitMarshalField (Fields s !!! fieldKey)) >>
     emitMarshalAdditional s >> need "strings" >> emit marshalFooter) c
  /\ (size (Fields s) = 0 ->
      textOf (emitMarshalCode s) =
        marshalHeader s +:+ textOf (emitMarshalAdditional s) +:+ marshalFooter
      /\ textOf (emitUnmarshalCode s) =
           unmarshalHeader s +:+ unmarshalParse +:+ unmarshalLoopOpen +:+
           textOf (emitUnmarshalDefault s) +:+ unmarshalLoopClose +:+ unmarshalFooter
      /\ emitToMapCode s "" = toMapHeader s +:+ toMapMake +:+ toMapFooter).
Proof.
  split.
  - unfold emitMarshalCode, seq. now rewrite guarded_forEach.
  - intros H0.
    rewrite emitMarshalCode_text, emitUnmarshalCode_text, emitToMapCode_text.
    rewrite getOrderedFieldNames_empty, orderedFields_empty by exact H0.
    repeat split.
Qed.

(** ** Facilities *)

Lemma Registers_emit (allowed : list string) (t : string) : Registers allowed (emit t).
Proof. intros c k. now left. Qed.

Lemma Registers_need (allowed : list string) (k' : string) :
  k' ∈ allowed -> Registers allowed (need k').
Proof.
  intros Hk c k. cbn. destruct (decide (k' = k)) as [<- | Hne].
  - right. split; [exact Hk | apply lookup_insert_eq].
  - left. now apply lookup_insert_ne.
Qed.

Lemma Registers_skip (allowed : list string) : Registers allowed skip.
Proof. intros c k. now left. Qed.

Lemma Registers_seq (allowed : list string) (a b : Emitter) :
  Registers allowed a -> Registers allowed b -> Registers allowed (a >> b).
Proof.
  intros Ha Hb c k. unfold seq.
  destruct (Hb (a c) k) as [-> | Hr]; [apply Ha | now right].
Qed.

Lemma Registers_if (allowed : list string) (b : bool) (x y : Emitter) :
  Registers allowed x -> Registers allowed y -> Registers allowed (if b then x else y).
Proof. now destruct b. Qed.

Lemma Registers_forEach {A} (allowed : list string) (l : list A) (body : A -> Emitter) :
  (forall x, Registers allowed (body x)) -> Registers allowed (forEach l body).
Proof.
  intros Hb. induction l as [|x l IH]; intros c k; [now left|].
  rewrite forEach_cons. destruct (IH (body x c) k) as [-> | Hr]; [apply Hb | now right].
Qed.

Lemma Registers_onWriter (allowed : list string) (f : Writer -> Writer) :
  Registers allowed (onWriter f).
Proof. intros c k. now left. Qed.

Lemma Registers_weaken (small large : list string) (e : Emitter) :
  small ⊆ large -> Registers small e -> Registers large e.
Proof.
  intros Hsub He c k. destruct (He c k) as [Hl | [Hin Hr]]; [now left|].
  right. split; [now apply Hsub | exact Hr].
Qed.

Create HintDb facilities.

(** Membership in, and inclusion between, explicit lists of names. *)
Ltac in_names := repeat constructor.
Ltac names_included :=
  let x := fresh "x" in let Hx := fresh "Hx" in
  intros x Hx;
  repeat (apply elem_of_cons in Hx as [-> | Hx]; [in_names|]);
  now apply elem_of_nil in Hx.

#[export] Hint Resolve Registers_emit Registers_need Registers_skip Registers_seq
  Registers_if Registers_forEach Registers_onWriter : facilities.
#[export] Hint Extern 1 (_ ∈ _) =>
  (unfold marshalFacilities, unmarshalFacilities, facilities; in_names) : facilities.

Lemma Registers_emitMarshalCode (s : Struct) :
  Registers marshalFacilities (emitMarshalCode s).
Proof.
  unfold emitMarshalCode, emitMarshalAdditional.
  assert (forall f, Registers marshalFacilities (emitMarshalField f)).
  { intros f. unfold emitMarshalField.
    destruct (getZeroValueCheck (MarshalType f)) as [z [|]]; auto 15 with facilities. }
  auto 15 with facilities.
Qed.

Lemma Registers_emitUnmarshalCode (s : Struct) :
  Registers unmarshalFacilities (emitUnmarshalCode s).
Proof.
  unfold emitUnmarshalCode, emitUnmarshalDefault.
  assert (forall f, Registers unmarshalFacilities (emitReceivedInit f))
    by (intros f; unfold emitReceivedInit; auto with facilities).
  assert (forall f, Registers unmarshalFacilities (emitUnmarshalCase f))
    by (intros f; unfold emitUnmarshalCase, emitUnmarshalFieldCode; auto 15 with facilities).
  assert (forall f, Registers unmarshalFacilities (emitReceivedCheck f))
    by (intros f; unfold emitReceivedCheck; auto with facilities).
  auto 20 with facilities.
Qed.

Lemma Registers_emitStructCode (s : Struct) : Registers facilities (emitStructCode s).
Proof.
  unfold emitStructCode. apply Registers_if; [|apply Registers_skip].
  apply Registers_seq; [|apply Registers_seq; [|apply Registers_onWriter]].
  - apply (Registers_weaken marshalFacilities); [|apply Registers_emitMarshalCode].
    unfold marshalFacilities, facilities. names_included.
  - apply (Registers_weaken unmarshalFacilities); [|apply Registers_emitUnmarshalCode].
    unfold unmarshalFacilities, facilities. names_included.
Qed.

(** Starting from an empty map, an emitter that registers within
    [allowed] ends within [allowed]. *)
Lemma Registers_Within (allowed : list string) (e : Emitter) (w : Writer) :
  Registers allowed e -> Within allowed (imports (e (mkCtx w ∅))).
Proof.
  intros He k v Hv. destruct (He (mkCtx w ∅) k) as [Hl | [Hin Hr]].
  - rewrite Hl in Hv. cbn in Hv. now rewrite lookup_empty in Hv.
  - rewrite Hr in Hv. injection Hv as <-. now split.
Qed.

(** X8: the marshal emitter registers nothing but [errors], [fmt] and
    [strings], the unmarshal emitter nothing but [encoding/json],
    [errors], [fmt] and [strconv], and neither changes or removes an
    entry at another key; so the facilities collected for a model are
    among these five, all set to [true], and [reflect] is never one of
    them. *)
Theorem generateCode_facilities (structs : gmap string Struct) :
  (forall s, Registers marshalFacilities (emitMarshalCode s))
  /\ (forall s, Registers unmarshalFacilities (emitUnmarshalCode s))
  /\ Within facilities (imports (generateCode structs))
  /\ imports (generateCode structs) !! "reflect" = None.
Proof.
  split; [apply Registers_emitMarshalCode|].
  split; [apply Registers_emitUnmarshalCode|].
  assert (Hw : Within facilities (imports (generateCode structs))).
  { unfold generateCode. apply Registers_Within, Registers_forEach.
    intros k. apply Registers_emitStructCode. }
  split; [exact Hw|].
  destruct (imports (generateCode structs) !! "reflect") as [v|] eqn:Hr; [|reflexivity].
  apply Hw in Hr as [_ Hin]. exfalso. unfold facilities in Hin.
  repeat (apply elem_of_cons in Hin as [Hin | Hin]; [discriminate|]).
  now apply elem_of_nil in Hin.
Qed.

Lemma Registers_Keeps (allowed : list string) (e : Emitter) : Registers allowed e -> Keeps e.
Proof.
  intros He c k Hk. destruct (He c k) as [-> | [_ Hr]]; [exact Hk | exact Hr].
Qed.

Lemma Keeps_emitMarshalCode (s : Struct) : Keeps (emitMarshalCode s).
Proof. eapply Registers_Keeps, Registers_emitMarshalCode. Qed.

Lemma Keeps_emitUnmarshalCode (s : Struct) : Keeps (emitUnmarshalCode s).
Proof. eapply Registers_Keeps, Registers_emitUnmarshalCode. Qed.

Lemma Keeps_emitStructCode (s : Struct) : Keeps (emitStructCode s).
Proof. eapply Registers_Keeps, Registers_emitStructCode. Qed.

Lemma emitMarshalCode_strings (s : Struct) (c : Ctx) :
  imports (emitMarshalCode s c) !! "strings" = Some true.
Proof. unfold emitMarshalCode, seq. cbn. apply lookup_insert_eq. Qed.

Lemma emitUnmarshalCode_json (s : Struct) (c : Ctx) :
  imports (emitUnmarshalCode s c) !! "encoding/json" = Some true.
Proof.
  pose proof (Keeps_emitUnmarshalCode s
                (mkCtx (out c) (<["encoding/json" := true]> (imports c)))
                "encoding/json" (lookup_insert_eq (imports c) "encoding/json" true)) as H.
  unfold emitUnmarshalCode, seq, need in *. cbn [out imports] in *.
  now rewrite insert_insert_eq in H.
Qed.

(** A loop whose rounds all do nothing does nothing. *)
Lemma forEach_inert {A} (l : list A) (body : A -> Emitter) (c : Ctx) :
  (forall x c', x ∈ l -> body x c' = c') -> forEach l body c = c.
Proof.
  induction l as [|x l IH]; intros H; [reflexivity|].
  rewrite forEach_cons, H by left. apply IH. intros y c' Hy. apply H. now right.
Qed.

Lemma generateCode_no_code (structs : gmap string Struct) :
  (forall k s, structs !! k = Some s -> GenerateCode s = false) ->
  generateCode structs = mkCtx "" ∅.
Proof.
  intros Hno. unfold generateCode. apply forEach_inert.
  intros k c Hk. apply orderedKeys_elem_of in Hk as [s Hs].
  rewrite (lookup_total_correct _ _ _ Hs). unfold emitStructCode.
  now rewrite (Hno k s Hs).
Qed.

(** X9: when some record of the model is code-generating, [strings]
    and [encoding/json] are among the collected facilities, so the
    facility block is written; when none is, nothing is collected and
    the code buffer stays empty. *)
Theorem generateCode_collects (structs : gmap string Struct) :
  ((exists k s, structs !! k = Some s /\ GenerateCode s = true) ->
     imports (generateCode structs) !! "strings" = Some true
     /\ imports (generateCode structs) !! "encoding/json" = Some true
     /\ 0 < size (imports (generateCode structs)))
  /\ ((forall k s, structs !! k = Some s -> GenerateCode s = false) ->
     generateCode structs = mkCtx "" ∅).
Proof.
  split; [|apply generateCode_no_code].
  intros [k [s [Hk Hg]]].
  assert (Hin : k ∈ getOrderedStructNames structs)
    by (apply orderedKeys_elem_of; now exists s).
  assert (Hs : imports (generateCode structs) !! "strings" = Some true).
  { unfold generateCode. apply (forEach_registers _ _ k); [exact Hin | |].
    - intros y. apply Keeps_emitStructCode.
    - intros c. rewrite (lookup_total_correct _ _ _ Hk). unfold emitStructCode.
      rewrite Hg. apply seq_registers_l; [apply emitMarshalCode_strings|].
      pose proof Keeps_emitUnmarshalCode. auto with emitters. }
  split; [exact Hs|]. split.
  - unfold generateCode. apply (forEach_registers _ _ k); [exact Hin | |].
    + intros y. apply Keeps_emitStructCode.
    + intros c. rewrite (lookup_total_correct _ _ _ Hk). unfold emitStructCode.
      rewrite Hg. apply seq_registers_r. intros c'.
      apply seq_registers_l; [apply emitUnmarshalCode_json | auto with emitters].
  - apply Nat.neq_0_lt_0. intros H0. apply map_size_empty_inv in H0.
    rewrite H0 in Hs. now rewrite lookup_empty in Hs.
Qed.

(** ** The orchestrator *)

Lemma Output_text (visit : list string) (w : Writer) (g : Generator) (pkg : string) :
  Output visit w g pkg =
    w +:+ generatedMarker +:+ nl +:+ packageLine pkg +:+
    (if bool_decide (0 < size (imports (generateCode (Structs g))))
     then importBlock visit else "") +:+
    cat (map (fun a => outputAlias a "") (orderedFields (Aliases g))) +:+
    cat (map (fun s => outputStructDecl s "") (orderedStructs (Structs g))) +:+
    out (generateCode (Structs g)).
Proof.
  unfold Output. cbv zeta.
  rewrite !forEachW_text
    by (intros x; first [apply AppendOnlyW_outputAlias | apply AppendOnlyW_outputStructDecl]).
  rewrite outputImports_text. unfold Fprintf.
  unfold orderedFields, orderedStructs. rewrite !map_map.
  now rewrite !append_assoc.
Qed.

(** X10: for a model without code-generating record, [Output] writes
    the marker, the package line, the alias declarations and the record
    declarations, and nothing else: no facility block and no routine,
    so the text is the same for every visiting order of [imports]. *)
Theorem Output_without_code (visit : list string) (w : Writer) (g : Generator) (pkg : string) :
  (forall k s, Structs g !! k = Some s -> GenerateCode s = false) ->
  Output visit w g pkg =
    w +:+ generatedMarker +:+ nl +:+ packageLine pkg +:+
    cat (map (fun a => outputAlias a "") (orderedFields (Aliases g))) +:+
    cat (map (fun s => outputStructDecl s "") (orderedStructs (Structs g))).
Proof.
  intros Hno. rewrite Output_text, (generateCode_no_code _ Hno).
  cbn [imports out]. rewrite map_size_empty, bool_decide_false by lia.
  now rewrite append_nil_l, append_nil_r.
Qed.

Lemma Output_without_code_witness :
  Output ["strings"; "fmt"] "" genShape "main" = Output [] "" genShape "main".
Proof.
  rewrite (Output_without_code ["strings"; "fmt"] "" genShape "main").
  - rewrite (Output_without_code [] "" genShape "main"); [reflexivity|].
    intros k s Hs. unfold genShape in Hs. cbn [Structs] in Hs.
    apply lookup_singleton_Some in Hs as [_ <-]. reflexivity.
  - intros k s Hs. unfold genShape in Hs. cbn [Structs] in Hs.
    apply lookup_singleton_Some in Hs as [_ <-]. reflexivity.
Defined.

(** X11: [Output] and the three emitters only append: what the writer
    held before is kept in front, and what is added does not depend on
    it (nor, for the emitters, on the facilities registered so far). *)
Theorem Output_appends (visit : list string) (w : Writer) (g : Generator) (pkg : string) :
  Output visit w g pkg = w +:+ Output visit "" g pkg
  /\ (forall s c, out (emitMarshalCode s c) = out c +:+ textOf (emitMarshalCode s))
  /\ (forall s c, out (emitUnmarshalCode s c) = out c +:+ textOf (emitUnmarshalCode s))
  /\ (forall s w', emitToMapCode s w' = w' +:+ emitToMapCode s "").
Proof.
  split; [now rewrite !Output_text|].
  split; [intros s; apply AppendOnly_emitMarshalCode|].
  split; [intros s; apply AppendOnly_emitUnmarshalCode|].
  intros s. apply AppendOnlyW_emitToMapCode.
Qed.

(** ** Additional properties *)


(** ** The [errors] facility *)

Lemma Avoids_emit (k : string) (t : string) : Avoids k (emit t).
Proof. intros c H. exact H. Qed.

Lemma Avoids_need (k k' : string) : k <> k' -> Avoids k (need k').
Proof. intros Hne c H. cbn. rewrite lookup_insert_ne by congruence. exact H. Qed.

Lemma Avoids_skip (k : string) : Avoids k skip.
Proof. intros c H. exact H. Qed.

Lemma Avoids_seq (k : string) (a b : Emitter) : Avoids k a -> Avoids k b -> Avoids k (a >> b).
Proof. intros Ha Hb c H. apply Hb, Ha, H. Qed.

Lemma Avoids_if (k : string) (b : bool) (x y : Emitter) :
  Avoids k x -> Avoids k y -> Avoids k (if b then x else y).
Proof. now destruct b. Qed.

Lemma Avoids_forEach {A} (k : string) (l : list A) (body : A -> Emitter) :
  (forall x, x ∈ l -> Avoids k (body x)) -> Avoids k (forEach l body).
Proof.
  induction l as [|x l IH]; intros Hb c H; [exact H|].
  rewrite forEach_cons. apply IH.
  - intros y Hy. apply Hb. now right.
  - apply Hb; [left | exact H].
Qed.

#[export] Hint Resolve Avoids_emit Avoids_skip Avoids_seq Avoids_if : facilities.
#[export] Hint Extern 1 (Avoids _ (need _)) => (apply Avoids_need; discriminate) : facilities.

Lemma Avoids_errors_emitMarshalField (f : Field) :
  Required f = false -> Avoids "errors" (emitMarshalField f).
Proof.
  intros Hr. unfold emitMarshalField. rewrite Hr.
  destruct (getZeroValueCheck (MarshalType f)) as [z [|]]; auto 15 with facilities.
Qed.

Lemma Avoids_errors_emitUnmarshalCase (f : Field) : Avoids "errors" (emitUnmarshalCase f).
Proof. unfold emitUnmarshalCase, emitUnmarshalFieldCode. auto 15 with facilities. Qed.

(** X13: the unmarshal emitter registers [errors] whenever the record
    has a required field (its completion check calls [errors.New]); for
    a record without required field neither the unmarshal nor the
    marshal emitter registers it. *)
Theorem errors_registered_for_required (s : Struct) :
  ((exists k f, Fields s !! k = Some f /\ Required f = true) ->
     forall c, imports (emitUnmarshalCode s c) !! "errors" = Some true)
  /\ ((forall k f, Fields s !! k = Some f -> Required f = false) ->
     Avoids "errors" (emitUnmarshalCode s) /\ Avoids "errors" (emitMarshalCode s)).
Proof.
  split.
  - intros [k [f [Hk Hr]]] c. unfold emitUnmarshalCode.
    do 8 (apply seq_registers_r; intros ?).
    apply seq_registers_l; [|auto with emitters].
    apply (forEach_registers _ _ k).
    + apply orderedKeys_elem_of. now exists f.
    + intros y. eapply Registers_Keeps with (allowed := unmarshalFacilities).
      unfold emitReceivedCheck. auto with facilities.
    + intros cx. rewrite (lookup_total_correct _ _ _ Hk).
      unfold emitReceivedCheck. rewrite Hr. cbn. apply lookup_insert_eq.
  - intros Hno.
    assert (Hkey : forall key, key ∈ getOrderedFieldNames (Fields s) ->
              Required (Fields s !!! key) = false).
    { intros key Hin. apply orderedKeys_elem_of in Hin as [f Hf].
      rewrite (lookup_total_correct _ _ _ Hf). now apply (Hno key). }
    split.
    + unfold emitUnmarshalCode.
      apply Avoids_seq; [auto with facilities|].
      apply Avoids_seq; [auto with facilities|].
      apply Avoids_seq.
      { apply Avoids_forEach. intros key Hin. unfold emitReceivedInit.
        auto with facilities. }
      apply Avoids_seq; [auto with facilities|].
      apply Avoids_seq; [auto with facilities|].
      apply Avoids_seq.
      { apply Avoids_forEach. intros key Hin. apply Avoids_errors_emitUnmarshalCase. }
      apply Avoids_seq; [unfold emitUnmarshalDefault; auto 10 with facilities|].
      apply Avoids_seq; [auto with facilities|].
      apply Avoids_seq; [|auto with facilities].
      apply Avoids_forEach. intros key Hin. unfold emitReceivedCheck.
      rewrite (Hkey key Hin). apply Avoids_skip.
    + unfold emitMarshalCode.
      apply Avoids_seq; [auto with facilities|].
      apply Avoids_seq.
      { apply Avoids_if; [|apply Avoids_skip].
        apply Avoids_forEach. intros key Hin.
        apply Avoids_errors_emitMarshalField, Hkey, Hin. }
      apply Avoids_seq; [unfold emitMarshalAdditional; auto 10 with facilities|].
      auto with facilities.
Qed.

(** ** The [fmt] and [strconv] facilities on the unmarshal side *)

Lemma Keeps_emitUnmarshalCase (f : Field) : Keeps (emitUnmarshalCase f).
Proof.
  apply Registers_Keeps with (allowed := unmarshalFacilities).
  unfold emitUnmarshalCase, emitUnmarshalFieldCode. auto 15 with facilities.
Qed.

Lemma Keeps_emitReceivedCheck (f : Field) : Keeps (emitReceivedCheck f).
Proof. unfold emitReceivedCheck. auto with emitters. Qed.

Lemma Keeps_emitUnmarshalDefault (s : Struct) : Keeps (emitUnmarshalDefault s).
Proof. unfold emitUnmarshalDefault. auto 10 with emitters. Qed.

(** X14: the unmarshal emitter registers [fmt] exactly when
    [AdditionalType] is ["false"], and [strconv] exactly when some field
    that is not excluded from reading is an integer read into text
    ([UnmarshalType] ["int"], [MarshalType] ["string"]). *)
Theorem emitUnmarshalCode_fmt_strconv (s : Struct) :
  (AdditionalType s = "false" ->
     forall c, imports (emitUnmarshalCode s c) !! "fmt" = Some true)
  /\ (AdditionalType s <> "false" -> Avoids "fmt" (emitUnmarshalCode s))
  /\ ((exists k f, Fields s !! k = Some f /\ UnmarshalName f <> "-"
                   /\ UnmarshalType f = "int" /\ MarshalType f = "string") ->
     forall c, imports (emitUnmarshalCode s c) !! "strconv" = Some true)
  /\ ((forall k f, Fields s !! k = Some f -> UnmarshalName f <> "-" ->
                   UnmarshalType f = "int" -> MarshalType f = "string" -> False) ->
     Avoids "strconv" (emitUnmarshalCode s)).
Proof.
  pose proof Keeps_emitUnmarshalCase as HKc.
  pose proof Keeps_emitReceivedCheck as HKr.
  pose proof Keeps_emitUnmarshalDefault as HKd.
  split; [|split; [|split]].
  - intros Ha c. unfold emitUnmarshalCode.
    do 6 (apply seq_registers_r; intros ?).
    apply seq_registers_l; [|auto 10 with emitters].
    unfold emitUnmarshalDefault. rewrite Ha. cbn. apply lookup_insert_eq.
  - intros Ha. unfold emitUnmarshalCode.
    apply Avoids_seq; [auto with facilities|].
    apply Avoids_seq; [auto with facilities|].
    apply Avoids_seq.
    { apply Avoids_forEach. intros key _. unfold emitReceivedInit. auto with facilities. }
    apply Avoids_seq; [auto with facilities|].
    apply Avoids_seq; [auto with facilities|].
    apply Avoids_seq.
    { apply Avoids_forEach. intros key _.
      unfold emitUnmarshalCase, emitUnmarshalFieldCode. auto 15 with facilities. }
    apply Avoids_seq.
    { unfold emitUnmarshalDefault. apply String.eqb_neq in Ha. rewrite Ha.
      auto with facilities. }
    apply Avoids_seq; [auto with facilities|].
    apply Avoids_seq; [|auto with facilities].
    apply Avoids_forEach. intros key _. unfold emitReceivedCheck. auto with facilities.
  - intros [k [f [Hk [Hn [Hu Hm]]]]] c. unfold emitUnmarshalCode.
    do 5 (apply seq_registers_r; intros ?).
    apply seq_registers_l; [|auto 10 with emitters].
    apply (forEach_registers _ _ k).
    + apply orderedKeys_elem_of. now exists f.
    + intros y. apply Keeps_emitUnmarshalCase.
    + intros cx. rewrite (lookup_total_correct _ _ _ Hk).
      unfold emitUnmarshalCase, emitUnmarshalFieldCode.
      apply String.eqb_neq in Hn. rewrite Hn, Hu, Hm. cbn [String.eqb Ascii.eqb Bool.eqb].
      apply seq_registers_l; [cbn; apply lookup_insert_eq | auto with emitters].
  - intros Hno. unfold emitUnmarshalCode.
    apply Avoids_seq; [auto with facilities|].
    apply Avoids_seq; [auto with facilities|].
    apply Avoids_seq.
    { apply Avoids_forEach. intros key _. unfold emitReceivedInit. auto with facilities. }
    apply Avoids_seq; [auto with facilities|].
    apply Avoids_seq; [auto with facilities|].
    apply Avoids_seq.
    { apply Avoids_forEach. intros key Hin.
      apply orderedKeys_elem_of in Hin as [f Hf].
      rewrite (lookup_total_correct _ _ _ Hf).
      unfold emitUnmarshalCase, emitUnmarshalFieldCode.
      destruct (String.eqb_spec (UnmarshalName f) "-") as [_ | Hn]; [auto with facilities|].
      destruct (String.eqb_spec (UnmarshalType f) "int") as [Hu | _];
        [|auto 15 with facilities].
      destruct (String.eqb_spec (MarshalType f) "string") as [Hm | _];
        [|auto 15 with facilities].
      destruct (Hno _ _ Hf Hn Hu Hm). }
    apply Avoids_seq; [unfold emitUnmarshalDefault; auto 10 with facilities|].
    apply Avoids_seq; [auto with facilities|].
    apply Avoids_seq; [|auto with facilities].
    apply Avoids_forEach. intros key _. unfold emitReceivedCheck. auto with facilities.
Qed.

(** ** Runs of the orchestrator *)

Lemma length_append (a b : string) :
  String.length (a +:+ b) = String.length a + String.length b.
Proof.
  induction a as [|c a IH]; [reflexivity|].
  rewrite append_String. cbn. now rewrite IH.
Qed.

Lemma length_cat_Permutation (l1 l2 : list string) :
  l1 ≡ₚ l2 -> String.length (cat l1) = String.length (cat l2).
Proof.
  induction 1 as [|x l1 l2 _ IH|x y l|l1 l2 l3 _ IH1 _ IH2].
  - reflexivity.
  - rewrite !cat_cons, !length_append. now rewrite IH.
  - rewrite !cat_cons, !length_append. lia.
  - now rewrite IH1.
Qed.

(** X15: two runs of [Output] on the same model and package name
    differ at most in the order of the lines of the facility block:
    they are the same text before and after it, their lines in between
    are those of two visiting orders of the same [imports], and the two
    texts have the same length. *)
Theorem OutputRun_up_to_import_order (g : Generator) (pkg r1 r2 : string) :
  OutputRun g pkg r1 -> OutputRun g pkg r2 ->
  exists pre post visit1 visit2,
    rangeOrder (imports (generateCode (Structs g))) visit1
    /\ rangeOrder (imports (generateCode (Structs g))) visit2
    /\ r1 = pre +:+ cat (map importLine visit1) +:+ post
    /\ r2 = pre +:+ cat (map importLine visit2) +:+ post
    /\ String.length r1 = String.length r2.
Proof.
  intros [v1 [Hv1 ->]] [v2 [Hv2 ->]].
  assert (Hp : map importLine v1 ≡ₚ map importLine v2).
  { change (map importLine ?l) with (importLine <$> l).
    unfold rangeOrder in *. now rewrite Hv1, Hv2. }
  rewrite !Output_text. unfold importBlock.
  case_bool_decide as Hs.
  - exists ("" +:+ generatedMarker +:+ nl +:+ packageLine pkg +:+ nl +:+ "import (" +:+ nl).
    exists (")" +:+ nl +:+
            cat (map (fun a => outputAlias a "") (orderedFields (Aliases g))) +:+
            cat (map (fun s => outputStructDecl s "") (orderedStructs (Structs g))) +:+
            out (generateCode (Structs g))).
    exists v1, v2.
    split; [exact Hv1|]. split; [exact Hv2|].
    split; [now rewrite !append_assoc|]. split; [now rewrite !append_assoc|].
    rewrite !length_append. now rewrite (length_cat_Permutation _ _ Hp).
  - assert (He : imports (generateCode (Structs g)) = ∅)
      by (apply map_size_empty_inv; lia).
    unfold rangeOrder in Hv1, Hv2. rewrite He, map_to_list_empty in Hv1, Hv2.
    apply Permutation_nil_r in Hv1, Hv2. subst v1 v2.
    eexists _, "", [], []. unfold rangeOrder. rewrite He, map_to_list_empty.
    split; [reflexivity|]. split; [reflexivity|].
    cbn [map]. rewrite cat_nil, append_nil_l, append_nil_r.
    repeat split.
Qed.

Lemma OutputRun_up_to_import_order_witness :
  String.length (Output (map_to_list (imports (generateCode (Structs genPerson)))).*1
                        "" genPerson "main")
  = String.length (Output (reverse (map_to_list (imports (generateCode (Structs genPerson)))).*1)
                          "" genPerson "main").
Proof.
  destruct (OutputRun_up_to_import_order genPerson "main"
              (Output (map_to_list (imports (generateCode (Structs genPerson)))).*1
                      "" genPerson "main")
              (Output (reverse (map_to_list (imports (generateCode (Structs genPerson)))).*1)
                      "" genPerson "main"))
    as (pre & post & v1 & v2 & _ & _ & _ & _ & Hlen).
  - eexists. split; [|reflexivity]. unfold rangeOrder. reflexivity.
  - eexists. split; [|reflexivity]. unfold rangeOrder. apply reverse_Permutation.
  - exact Hlen.
Defined.

(** ** Anatomy of a field's code *)

(** X16: for a field that is serialized and not required, the marshal
    emitter writes the statement calling [json.Marshal] on the field,
    returning its error or appending ["<MarshalName>": <value>] to
    [lines], closed by the matching braces; when the field is
    omit-empty this is preceded by the opening of the wrapper:
    [if strct.<Name> != <zero> {] with the literal of the zero-value
    resolver when it has one, [if reflect.ValueOf(strct.<Name>).IsZero() {]
    otherwise; the only facility it registers is [fmt]. *)
Theorem emitMarshalField_anatomy (f : Field) :
  MarshalName f <> "-" -> Required f = false ->
  textOf (emitMarshalField f) =
    (if OmitEmpty f then
       if (getZeroValueCheck (MarshalType f)).2
       then tab +:+ "// omit empty" +:+ nl +:+
            tab +:+ "if strct." +:+ Name f +:+ " != " +:+
              (getZeroValueCheck (MarshalType f)).1 +:+ " {" +:+ nl
       else tab +:+ "// Check using reflect.Value" +:+ nl +:+
            tab +:+ "if reflect.ValueOf(strct." +:+ Name f +:+ ").IsZero() {" +:+ nl
     else "") +:+
    "  // Marshal the " +:+ dq +:+ MarshalName f +:+ dq +:+ " field" +:+ nl +:+
    tab +:+ "if tmp, err := json.Marshal(strct." +:+ Name f +:+ "); err != nil {" +:+ nl +:+
    tab +:+ tab +:+ "return nil, err" +:+ nl +:+
    tab +:+ "} else {" +:+ nl +:+
    "lines = append(lines, fmt.Sprintf(" +:+ dq +:+ "\" +:+ dq +:+ MarshalName f +:+
      "\" +:+ dq +:+ ": %s" +:+ dq +:+ ", tmp))" +:+
    (if OmitEmpty f
     then nl +:+ tab +:+ "}" +:+ nl +:+ "}" +:+ nl +:+ nl
     else nl +:+ tab +:+ tab +:+ tab +:+ tab +:+ "}" +:+ nl +:+ nl)
  /\ (forall c, imports (emitMarshalField f c) = <["fmt" := true]> (imports c)).
Proof.
  intros Hn Hr. apply String.eqb_neq in Hn.
  unfold emitMarshalField. rewrite Hn, Hr.
  destruct (getZeroValueCheck (MarshalType f)) as [z hz]. cbn [fst snd].
  unfold textOf, seq, emit, need, skip, Fprintf.
  unfold omitLiteralOpen, omitReflectOpen, marshalOpen, marshalAppend, omitClose, plainClose.
  destruct (OmitEmpty f), hz; cbn [out imports];
    rewrite ?append_nil_l, ?append_assoc; split; reflexivity.
Qed.

Lemma emitMarshalField_anatomy_witness :
  textOf (emitMarshalField fldTags) =
    tab +:+ "// omit empty" +:+ nl +:+
    tab +:+ "if strct.Tags != nil {" +:+ nl +:+
    "  // Marshal the " +:+ dq +:+ "tags" +:+ dq +:+ " field" +:+ nl +:+
    tab +:+ "if tmp, err := json.Marshal(strct.Tags); err != nil {" +:+ nl +:+
    tab +:+ tab +:+ "return nil, err" +:+ nl +:+
    tab +:+ "} else {" +:+ nl +:+
    "lines = append(lines, fmt.Sprintf(" +:+ dq +:+ "\" +:+ dq +:+ "tags" +:+
      "\" +:+ dq +:+ ": %s" +:+ dq +:+ ", tmp))" +:+
    nl +:+ tab +:+ "}" +:+ nl +:+ "}" +:+ nl +:+ nl.
Proof.
  apply (emitMarshalField_anatomy fldTags); [discriminate | reflexivity].
Defined.



(** * The output stream, spelled out *)

Lemma cat_map_ext {A} (f g : A -> string) (l : list A) :
  (forall x, f x = g x) -> cat (map f l) = cat (map g l).
Proof. intros H. f_equal. apply map_ext. exact H. Qed.

Lemma outputNameAndDescriptionComment_text (name description : string) (w : Writer) :
  outputNameAndDescriptionComment name description w =
    w +:+ "// " +:+ name +:+ " " +:+
    Join (SplitLines description) (nl +:+ "// ") +:+ nl.
Proof.
  unfold outputNameAndDescriptionComment, Fprintf.
  destruct (Index description nl) eqn:Hi.
  - reflexivity.
  - now rewrite (SplitLines_single _ Hi).
Qed.

Lemma outputFieldDescriptionComment_text (description : string) (w : Writer) :
  outputFieldDescriptionComment description w =
    w +:+ nl +:+ "  // " +:+
    Join (SplitLines description) (nl +:+ "  // ") +:+ nl.
Proof.
  unfold outputFieldDescriptionComment, Fprintf.
  destruct (Index description nl) eqn:Hi.
  - reflexivity.
  - now rewrite (SplitLines_single _ Hi).
Qed.

Lemma outputAlias_literal (a : Field) :
  outputAlias a "" =
    nl +:+ "// " +:+ Name a +:+ nl +:+
    "type " +:+ Name a +:+ " " +:+ UnmarshalType a +:+ nl.
Proof. now rewrite outputAlias_text. Qed.

Lemma outputFieldDecl_literal (f : Field) :
  outputFieldDecl f "" =
    (if String.eqb (Description f) "" then ""
     else nl +:+ "  // " +:+
          Join (SplitLines (Description f)) (nl +:+ "  // ") +:+ nl) +:+
    "  " +:+ Name f +:+ " " +:+ MarshalType f +:+ nl.
Proof.
  rewrite outputFieldDecl_text, append_nil_l.
  destruct (String.eqb (Description f) ""); cbn [negb]; [reflexivity|].
  now rewrite outputFieldDescriptionComment_text.
Qed.

Lemma outputStructDecl_literal (s : Struct) :
  outputStructDecl s "" =
    nl +:+
    "// " +:+ sName s +:+ " " +:+
      Join (SplitLines (sDescription s)) (nl +:+ "// ") +:+ nl +:+
    "type " +:+ sName s +:+ " struct {" +:+ nl +:+
    cat (map (fun f =>
                (if String.eqb (Description f) "" then ""
                 else nl +:+ "  // " +:+
                      Join (SplitLines (Description f)) (nl +:+ "  // ") +:+ nl) +:+
                "  " +:+ Name f +:+ " " +:+ MarshalType f +:+ nl)
             (map (fun k => Fields s !!! k) (getOrderedFieldNames (Fields s)))) +:+
    "}" +:+ nl.
Proof.
  rewrite outputStructDecl_text, append_nil_l, outputNameAndDescriptionComment_text.
  rewrite (cat_map_ext _ _ _ outputFieldDecl_literal).
  unfold orderedFields. rewrite append_nil_l, !append_assoc. reflexivity.
Qed.

(** C8: the output stream is, in this order: the line
    [// Code generated by schema-generate. DO NOT EDIT.], an empty line
    and [package <cleaned name>]; only when the collected facility set
    is non-empty, the block [import ( ... )] with one quoted line per
    facility; for each alias in sorted alias order an empty line, the
    comment [// <Name>] and the synonym [type <Name> <UnmarshalType>];
    for each record in sorted record order an empty line, the doc
    comment [// <Name> <Description>] (continued lines commented too),
    [type <Name> struct {], the field declarations [<Name> <MarshalType>]
    in sorted field order, each preceded by its doc comment when the
    description is not empty, and the closing brace; then, for the
    records flagged [GenerateCode] in the same sorted record order, the
    [MarshalJSON], [UnmarshalJSON] and [ToMap] routines. *)
Theorem Output_layout (visit : list string) (w : Writer) (g : Generator) (pkg : string) :
  Output visit w g pkg =
    w +:+
    "// Code generated by schema-generate. DO NOT EDIT." +:+ nl +:+
    nl +:+
    "package " +:+ cleanPackageName pkg +:+ nl +:+
    (if bool_decide (0 < size (imports (generateCode (Structs g))))
     then nl +:+ "import (" +:+ nl +:+
          cat (map (fun k => "    " +:+ dq +:+ k +:+ dq +:+ nl) visit) +:+
          ")" +:+ nl
     else "") +:+
    cat (map (fun a => nl +:+
                       "// " +:+ Name a +:+ nl +:+
                       "type " +:+ Name a +:+ " " +:+ UnmarshalType a +:+ nl)
             (map (fun k => Aliases g !!! k) (getOrderedFieldNames (Aliases g)))) +:+
    cat (map (fun s =>
                nl +:+
                "// " +:+ sName s +:+ " " +:+
                  Join (SplitLines (sDescription s)) (nl +:+ "// ") +:+ nl +:+
                "type " +:+ sName s +:+ " struct {" +:+ nl +:+
                cat (map (fun f =>
                            (if String.eqb (Description f) "" then ""
                             else nl +:+ "  // " +:+
                                  Join (SplitLines (Description f)) (nl +:+ "  // ") +:+ nl) +:+
                            "  " +:+ Name f +:+ " " +:+ MarshalType f +:+ nl)
                         (map (fun k => Fields s !!! k) (getOrderedFieldNames (Fields s)))) +:+
                "}" +:+ nl)
             (map (fun k => Structs g !!! k) (getOrderedStructNames (Structs g)))) +:+
    cat (map (fun s => textOf (emitMarshalCode s) +:+ textOf (emitUnmarshalCode s) +:+
                       emitToMapCode s "")
             (filter (fun s => GenerateCode s = true)
                     (map (fun k => Structs g !!! k) (getOrderedStructNames (Structs g)))))
  /\ (forall s, exists body,
        textOf (emitMarshalCode s) =
          nl +:+ "func (strct " +:+ sName s +:+ ") MarshalJSON() ([]byte, error) {" +:+ nl +:+
          body +:+
          tab +:+ "return []byte(" +:+ dq +:+ "{" +:+ dq +:+ " + strings.Join(lines, " +:+
            dq +:+ ", " +:+ dq +:+ ") + " +:+ dq +:+ "}" +:+ dq +:+ "), nil" +:+ nl +:+
          "}" +:+ nl)
  /\ (forall s, exists body,
        textOf (emitUnmarshalCode s) =
          nl +:+ "func (strct *" +:+ sName s +:+ ") UnmarshalJSON(b []byte) error {" +:+ nl +:+
          body +:+
          "    return nil" +:+ nl +:+
          "}" +:+ nl)
  /\ (forall s, exists body,
        emitToMapCode s "" =
          nl +:+ "func (strct *" +:+ sName s +:+ ") ToMap() map[string]any {" +:+ nl +:+
          body +:+
          "    return m" +:+ nl +:+
          "}" +:+ nl)
  /\ Sorted String.le (getOrderedFieldNames (Aliases g))
  /\ map (fun k => (k, Aliases g !!! k)) (getOrderedFieldNames (Aliases g))
       ≡ₚ map_to_list (Aliases g)
  /\ Sorted String.le (getOrderedStructNames (Structs g))
  /\ map (fun k => (k, Structs g !!! k)) (getOrderedStructNames (Structs g))
       ≡ₚ map_to_list (Structs g)
  /\ (forall s, Sorted String.le (getOrderedFieldNames (Fields s))
        /\ map (fun k => (k, Fields s !!! k)) (getOrderedFieldNames (Fields s))
             ≡ₚ map_to_list (Fields s)).
Proof.
  split.
  { rewrite Output_text, generateCode_out.
    unfold generatedMarker, packageLine, importBlock, importLine,
      orderedFields, orderedStructs, routinesOf.
    rewrite !map_map.
    rewrite (cat_map_ext _ _ _ (fun k => outputAlias_literal (Aliases g !!! k))).
    rewrite (cat_map_ext _ _ _ (fun k => outputStructDecl_literal (Structs g !!! k))).
    rewrite !append_assoc. reflexivity. }
  split.
  { intros s.
    exists (tab +:+ "lines := []string{}" +:+ nl +:+ tab +:+ nl +:+
            cat (map (fun f => textOf (emitMarshalField f)) (orderedFields (Fields s))) +:+
            textOf (emitMarshalAdditional s) +:+ nl).
    rewrite emitMarshalCode_text. unfold marshalHeader, marshalFooter.
    rewrite !append_assoc. reflexivity. }
  split.
  { intros s.
    exists (cat (map (fun f => textOf (emitReceivedInit f)) (orderedFields (Fields s))) +:+
            unmarshalParse +:+ unmarshalLoopOpen +:+
            cat (map (fun f => textOf (emitUnmarshalCase f)) (orderedFields (Fields s))) +:+
            textOf (emitUnmarshalDefault s) +:+ unmarshalLoopClose +:+
            cat (map (fun f => textOf (emitReceivedCheck f)) (orderedFields (Fields s)))).
    rewrite emitUnmarshalCode_text. unfold unmarshalHeader, unmarshalFooter.
    rewrite !append_assoc. reflexivity. }
  split.
  { intros s.
    exists (toMapMake +:+
            cat (map (fun k => toMapEntry (Fields s !!! k)) (getOrderedFieldNames (Fields s)))).
    rewrite emitToMapCode_text. unfold toMapHeader, toMapFooter.
    rewrite append_nil_l, !append_assoc. reflexivity. }
  unfold getOrderedFieldNames, getOrderedStructNames.
  repeat split; try apply orderedKeys_lookup_Permutation;
    rewrite orderedKeys_sort; apply sortStrings_Sorted.
Qed.

(** * The dispatch switch *)

Lemma switchText_eq (s : Struct) :
  switchText s =
  cat (map (fun f => textOf (emitUnmarshalCase f)) (orderedFields (Fields s))) +:+
  textOf (emitUnmarshalDefault s).
Proof.
  unfold switchText. rewrite textOf_seq, textOf_forEach by auto with emitters.
  unfold orderedFields. now rewrite map_map.
Qed.

Lemma plainName_no_lf (n : string) : plainName n = true -> hasByte "010" n = false.
Proof.
  induction n as [|c r IH]; [reflexivity|]. cbn [plainName hasByte].
  intros H. apply andb_true_iff in H as [Hc Hr]. rewrite (IH Hr), orb_false_r.
  destruct (Ascii.eqb_spec c "010") as [-> | _]; [discriminate Hc | reflexivity].
Qed.

Lemma SplitLines_line (a t : string) :
  hasByte "010" a = false -> SplitLines (a +:+ nl +:+ t) = a :: SplitLines t.
Proof.
  induction a as [|c r IH]; [reflexivity|]. cbn [hasByte]. intros H.
  apply orb_false_iff in H as [Hc Hr]. rewrite append_String. cbn [SplitLines].
  change (ascii_of_nat 10) with "010"%char. rewrite Hc. now rewrite (IH Hr).
Qed.

Lemma unlines_cons (l : string) (ls : list string) :
  unlines (l :: ls) = l +:+ nl +:+ unlines ls.
Proof. unfold unlines. cbn [map]. now rewrite cat_cons, append_assoc. Qed.

Lemma unlines_app (l1 l2 : list string) : unlines (l1 ++ l2) = unlines l1 +:+ unlines l2.
Proof. unfold unlines. now rewrite map_app, cat_app. Qed.

Lemma codeLines_unlines (ls : list string) (t : string) :
  Forall (fun l => hasByte "010" l = false) ls ->
  codeLines (unlines ls +:+ t) = filter (fun l => l <> EmptyString) ls ++ codeLines t.
Proof.
  induction 1 as [|l ls Hl _ IH]; [reflexivity|].
  rewrite unlines_cons, !append_assoc. unfold codeLines in *.
  rewrite (SplitLines_line _ _ Hl), !filter_cons.
  destruct (decide (l <> EmptyString)); now rewrite IH.
Qed.

Lemma findClause_app (test : string -> bool) (l1 l2 : list string) :
  Forall (fun l => test l = false) l1 -> findClause test (l1 ++ l2) = findClause test l2.
Proof.
  induction 1 as [|l l1 Hl _ IH]; [reflexivity|]. cbn. now rewrite Hl.
Qed.

Lemma findClause_none (test : string -> bool) (l1 : list string) :
  Forall (fun l => test l = false) l1 -> findClause test l1 = None.
Proof.
  intros H. rewrite <- (app_nil_r l1). now rewrite findClause_app.
Qed.

Lemma append_cancel_r (a b c : string) : a +:+ c = b +:+ c -> a = b.
Proof.
  revert b. induction a as [|x a IH]; intros [|y b] H.
  - reflexivity.
  - exfalso. apply (f_equal String.length) in H.
    rewrite append_nil_l, append_String in H. cbn in H. rewrite length_append in H. lia.
  - exfalso. apply (f_equal String.length) in H.
    rewrite append_nil_l, append_String in H. cbn in H. rewrite length_append in H. lia.
  - rewrite !append_String in H. injection H as -> H. f_equal. now apply IH.
Qed.

Lemma caseLineOf_inj (k1 k2 : string) : caseLineOf k1 = caseLineOf k2 -> k1 = k2.
Proof.
  unfold caseLineOf. intros H.
  apply String.app_inj in H. apply String.app_inj in H.
  now apply append_cancel_r in H.
Qed.

Ltac quiet_line HN HU :=
  split; [rewrite ?hasByte_append, ?HN, ?HU; reflexivity | split; reflexivity].

Lemma caseLineOf_quiet (key u : string) :
  hasByte "010" u = false -> u <> key -> quietLine key (caseLineOf u).
Proof.
  intros Hu Hne. split; [|split].
  - unfold caseLineOf. rewrite !hasByte_append, Hu. reflexivity.
  - reflexivity.
  - apply String.eqb_neq. intros H. apply caseLineOf_inj in H. congruence.
Qed.

(** The text of a field's case is made of whole lines, none of which is
    the [default] label or the label of another key. *)
Lemma emitUnmarshalFieldCode_lines (key : string) (f : Field) :
  hasByte "010" (Name f) = false -> hasByte "010" (UnmarshalName f) = false ->
  UnmarshalName f <> key ->
  exists ls, textOf (emitUnmarshalFieldCode f) = unlines ls /\ Forall (quietLine key) ls.
Proof.
  intros HN HU Hne. pose proof (caseLineOf_quiet key _ HU Hne) as Hlabel.
  unfold emitUnmarshalFieldCode.
  destruct (String.eqb (MarshalType f) (UnmarshalType f)).
  { exists [caseLineOf (UnmarshalName f);
            "            if err := json.Unmarshal([]byte(v), &strct." +:+ Name f +:+ "); err != nil {";
            "                return err";
            "             }"].
    split.
    - rewrite textOf_emit. unfold caseDirect, unlines, caseLineOf. cbn [map cat foldr].
      rewrite ?append_assoc, ?append_nil_r. reflexivity.
    - repeat (apply Forall_cons; split; [first [exact Hlabel | quiet_line HN HU]|]).
      apply Forall_nil. exact I. }
  destruct (String.eqb (UnmarshalType f) "string").
  { destruct (String.eqb (MarshalType f) "int"); [|exists []; split; [reflexivity|constructor]].
    exists [caseLineOf (UnmarshalName f);
            "            if newVal, err := strconv.ParseInt(v, 10, 0); err != nil {";
            "                return err";
            "             }";
            "            if err := json.Unmarshal([]byte(newVal), &strct." +:+ Name f +:+ "); err != nil {";
            "                return err";
            "             }"].
    split.
    - rewrite textOf_emit. unfold caseTextToInt, unlines, caseLineOf. cbn [map cat foldr].
      rewrite ?append_assoc, ?append_nil_r. reflexivity.
    - repeat (apply Forall_cons; split; [first [exact Hlabel | quiet_line HN HU]|]).
      apply Forall_nil. exact I. }
  destruct (String.eqb (UnmarshalType f) "int"); [|exists []; split; [reflexivity|constructor]].
  destruct (String.eqb (MarshalType f) "string"); [|exists []; split; [reflexivity|constructor]].
  exists [caseLineOf (UnmarshalName f);
          tab +:+ tab +:+ tab +:+ "var intVal int";
          "            if err := json.Unmarshal([]byte(v), &intVal); err != nil {";
          "                return err";
          "             }";
          "            strct." +:+ Name f +:+ " = strconv.Itoa(intVal)"].
  split.
  - rewrite textOf_seq, textOf_need, textOf_emit by auto with emitters.
    unfold caseIntToText, unlines, caseLineOf. cbn [map cat foldr].
    rewrite ?append_assoc, ?append_nil_r, ?append_nil_l. reflexivity.
  - repeat (apply Forall_cons; split; [first [exact Hlabel | quiet_line HN HU]|]).
    apply Forall_nil. exact I.
Qed.

Lemma emitUnmarshalCase_lines (key : string) (f : Field) :
  hasByte "010" (Name f) = false -> hasByte "010" (UnmarshalName f) = false ->
  UnmarshalName f <> key ->
  exists ls, textOf (emitUnmarshalCase f) = unlines ls /\ Forall (quietLine key) ls.
Proof.
  intros HN HU Hne. unfold emitUnmarshalCase.
  destruct (String.eqb (UnmarshalName f) "-");
    [exists []; split; [reflexivity|constructor]|].
  destruct (emitUnmarshalFieldCode_lines key f HN HU Hne) as [ls [Hls Hq]].
  rewrite textOf_seq by auto with emitters. rewrite Hls.
  destruct (Required f).
  - exists (ls ++ ["            " +:+ UnmarshalName f +:+ "Received = true"]).
    split.
    + rewrite unlines_app, textOf_emit. f_equal.
      unfold receivedSet, unlines. cbn [map cat foldr].
      rewrite ?append_assoc, ?append_nil_r. reflexivity.
    + apply Forall_app. split; [exact Hq|].
      apply Forall_cons; split; [quiet_line HN HU | apply Forall_nil; exact I].
  - exists ls. rewrite textOf_skip, append_nil_r. now split.
Qed.

Lemma switch_cases_lines (key : string) (fs : list Field) :
  Forall (fun f => hasByte "010" (Name f) = false
                   /\ hasByte "010" (UnmarshalName f) = false
                   /\ UnmarshalName f <> key) fs ->
  exists ls, cat (map (fun f => textOf (emitUnmarshalCase f)) fs) = unlines ls
             /\ Forall (quietLine key) ls.
Proof.
  induction 1 as [|f fs [HN [HU Hne]] _ [ls [Hls Hq]]].
  - exists []. split; [reflexivity|constructor].
  - destruct (emitUnmarshalCase_lines key f HN HU Hne) as [l1 [Hl1 Hq1]].
    exists (l1 ++ ls). cbn [map]. rewrite cat_cons, Hl1, Hls, unlines_app.
    split; [reflexivity|]. apply Forall_app. now split.
Qed.

Lemma orderedFields_lookup (m : gmap string Field) (f : Field) :
  f ∈ orderedFields m -> exists k, m !! k = Some f.
Proof.
  unfold orderedFields. change (map ?g ?l) with (g <$> l).
  intros H. apply list_elem_of_fmap in H as [k [-> Hk]].
  apply orderedKeys_elem_of in Hk as [f Hf]. exists k.
  now rewrite (lookup_total_correct _ _ _ Hf).
Qed.

(** C10, as stated, fails on [recInj]: its [AdditionalType] is empty and
    the emitter writes no default case of its own, yet the key of its
    field brings a [default] clause into the emitted switch, whose
    [return nil] runs for a key that is no field's. *)
Lemma emitUnmarshalCode_default_by_key :
  AdditionalType recInj = ""
  /\ textOf (emitUnmarshalDefault recInj) = ""
  /\ existsb isDefaultLine (codeLines (switchText recInj)) = true
  /\ switchRuns "other" (codeLines (switchText recInj)) = ["            return nil"].
Proof. vm_compute. repeat split. Qed.

(** C10 (amended): for a record whose [AdditionalType] is empty and
    whose fields have plain names, the switch of the unmarshal routine
    (the lines between [switch k {] and its closing) has no default
    clause at all, and for a key that is no field's [UnmarshalName] it
    runs nothing: the key is skipped and cannot make unmarshaling
    fail.  The switch written for the same record with [AdditionalType]
    ["false"] has the same lines followed by [default:] and [continue],
    and for such a key it runs that [continue] only: the same
    behaviour. *)
Theorem emitUnmarshalCode_no_default (s : Struct) (key : string) :
  AdditionalType s = "" ->
  (forall k f, Fields s !! k = Some f ->
     plainName (Name f) = true /\ plainName (UnmarshalName f) = true) ->
  (forall k f, Fields s !! k = Some f -> UnmarshalName f <> key) ->
  (forall s', exists pre post,
     textOf (emitUnmarshalCode s') =
       pre +:+ tab +:+ tab +:+ tab +:+ "switch k {" +:+ nl +:+
       switchText s' +:+
       "        }}" +:+ nl +:+ post)
  /\ Forall (fun l => isDefaultLine l = false) (codeLines (switchText s))
  /\ switchRuns key (codeLines (switchText s)) = []
  /\ codeLines (switchText (withAdditionalType "false" s))
     = codeLines (switchText s) ++ ["        default:"; "            continue"]
  /\ switchRuns key (codeLines (switchText (withAdditionalType "false" s)))
     = ["            continue"].
Proof.
  intros Ha Hplain Hunknown.
  split.
  { intros s'.
    exists (unmarshalHeader s' +:+
            cat (map (fun f => textOf (emitReceivedInit f)) (orderedFields (Fields s'))) +:+
            unmarshalParse +:+ nl +:+
            "    // parse all the defined properties" +:+ nl +:+
            "    for k, v := range jsonMap {" +:+ nl +:+
            "        if v != nil {" +:+ nl).
    exists ("    }" +:+ nl +:+
            cat (map (fun f => textOf (emitReceivedCheck f)) (orderedFields (Fields s'))) +:+
            unmarshalFooter).
    rewrite emitUnmarshalCode_text, switchText_eq.
    unfold unmarshalLoopOpen, unmarshalLoopClose.
    rewrite !append_assoc. reflexivity. }
  destruct (switch_cases_lines key (orderedFields (Fields s))) as [ls [Hls Hq]].
  { apply Forall_forall. intros f Hf.
    apply orderedFields_lookup in Hf as [k Hk].
    destruct (Hplain k f Hk) as [HN HU].
    split; [now apply plainName_no_lf|]. split; [now apply plainName_no_lf|].
    now apply (Hunknown k). }
  assert (Hnolf : Forall (fun l => hasByte "010" l = false) ls)
    by (eapply Forall_impl; [exact Hq | now intros l [H _]]).
  assert (Hq' : Forall (quietLine key) (filter (fun l => l <> EmptyString) ls)).
  { apply Forall_forall. intros l Hl. apply list_elem_of_filter in Hl as [_ Hl].
    rewrite Forall_forall in Hq. now apply Hq. }
  assert (Hnd : Forall (fun l => isDefaultLine l = false)
                       (filter (fun l => l <> EmptyString) ls))
    by (eapply Forall_impl; [exact Hq' | now intros l [_ [H _]]]).
  assert (Hnc : Forall (fun l => String.eqb (caseLineOf key) l = false)
                       (filter (fun l => l <> EmptyString) ls))
    by (eapply Forall_impl; [exact Hq' | now intros l [_ [_ H]]]).
  assert (H1 : codeLines (switchText s) = filter (fun l => l <> EmptyString) ls).
  { rewrite switchText_eq, Hls. unfold emitUnmarshalDefault. rewrite Ha.
    cbn [String.eqb negb]. rewrite textOf_skip, codeLines_unlines by exact Hnolf.
    apply app_nil_r. }
  assert (H2 : codeLines (switchText (withAdditionalType "false" s))
               = filter (fun l => l <> EmptyString) ls
                 ++ ["        default:"; "            continue"]).
  { rewrite switchText_eq. cbn [withAdditionalType Fields]. rewrite Hls.
    unfold emitUnmarshalDefault. cbn [withAdditionalType AdditionalType].
    rewrite codeLines_unlines by exact Hnolf. reflexivity. }
  rewrite H2, H1.
  split; [exact Hnd|]. split.
  { unfold switchRuns. now rewrite !findClause_none. }
  split; [reflexivity|].
  unfold switchRuns. rewrite !findClause_app by assumption. reflexivity.
Qed.

Lemma emitUnmarshalCode_no_default_witness :
  switchRuns "other" (codeLines (switchText recPlain)) = []
  /\ switchRuns "other" (codeLines (switchText (withAdditionalType "false" recPlain)))
     = ["            continue"].
Proof.
  assert (Hf : forall k f, Fields recPlain !! k = Some f -> f = fldName).
  { intros k f H. unfold recPlain in H. cbn [Fields] in H.
    apply lookup_singleton_Some in H as [_ <-]. reflexivity. }
  split.
  - apply (emitUnmarshalCode_no_default recPlain "other").
    + reflexivity.
    + intros k f H. rewrite (Hf k f H). split; reflexivity.
    + intros k f H. rewrite (Hf k f H). discriminate.
  - apply (emitUnmarshalCode_no_default recPlain "other").
    + reflexivity.
    + intros k f H. rewrite (Hf k f H). split; reflexivity.
    + intros k f H. rewrite (Hf k f H). discriminate.
Defined.

(** X18: the unmarshal routine of every record is, in this order: its
    opening line; one [<UnmarshalName>Received := false] per required
    field, in sorted field order; the generic parse returning its
    error; the loop over the parsed keys with the dispatch switch; one
    check per required field, in the same order, returning
    [errors.New("\"<UnmarshalName>\" is required but was not present")]
    when the flag is false; and only then [return nil].  For a required
    field that is read and has a dispatch case, the case opens with
    [case "<UnmarshalName>":] and ends with the assignment
    [<UnmarshalName>Received = true]. *)
Theorem emitUnmarshalCode_flags (s : Struct) :
  textOf (emitUnmarshalCode s) =
    nl +:+ "func (strct *" +:+ sName s +:+ ") UnmarshalJSON(b []byte) error {" +:+ nl +:+
    cat (map (fun f => "    " +:+ UnmarshalName f +:+ "Received := false" +:+ nl)
             (filter (fun f => Required f = true) (orderedFields (Fields s)))) +:+
    "    var jsonMap map[string]json.RawMessage" +:+ nl +:+
    "    if err := json.Unmarshal(b, &jsonMap); err != nil {" +:+ nl +:+
    "        return err" +:+ nl +:+
    "    }" +:+ nl +:+
    "    // parse all the defined properties" +:+ nl +:+
    "    for k, v := range jsonMap {" +:+ nl +:+
    "        if v != nil {" +:+ nl +:+
    tab +:+ tab +:+ tab +:+ "switch k {" +:+ nl +:+
    switchText s +:+
    "        }}" +:+ nl +:+
    "    }" +:+ nl +:+
    cat (map (fun f =>
                "    // check if " +:+ UnmarshalName f +:+
                  " (a required property) was received" +:+ nl +:+
                "    if !" +:+ UnmarshalName f +:+ "Received {" +:+ nl +:+
                "        return errors.New(" +:+ dq +:+ "\" +:+ dq +:+ UnmarshalName f +:+
                  "\" +:+ dq +:+ " is required but was not present" +:+ dq +:+ ")" +:+ nl +:+
                "    }" +:+ nl)
             (filter (fun f => Required f = true) (orderedFields (Fields s)))) +:+
    "    return nil" +:+ nl +:+
    "}" +:+ nl
  /\ (forall f, Required f = true -> UnmarshalName f <> "-" -> hasCase f = true ->
        exists body,
          textOf (emitUnmarshalCase f) =
            "        case " +:+ dq +:+ UnmarshalName f +:+ dq +:+ ":" +:+ nl +:+
            body +:+
            "            " +:+ UnmarshalName f +:+ "Received = true" +:+ nl).
Proof.
  split.
  - rewrite emitUnmarshalCode_text, receivedInit_filter, receivedCheck_filter, switchText_eq.
    unfold unmarshalHeader, unmarshalParse, unmarshalLoopOpen, unmarshalLoopClose,
      unmarshalFooter.
    rewrite !append_assoc. reflexivity.
  - intros f Hr Hn Hc.
    destruct (emitUnmarshalFieldCode_label f Hc) as [body Hb]. exists body.
    unfold emitUnmarshalCase. apply String.eqb_neq in Hn. rewrite Hn, Hr.
    rewrite textOf_seq, textOf_emit, Hb by auto with emitters.
    unfold caseLabel, receivedSet. rewrite !append_assoc. reflexivity.
Qed.
